(** * A sortable table over a tree-view widget: model of [table.py]

    The Python class [Table] wraps a ttk [Treeview].  This development
    embeds the state the class reads and writes (the widget's rows, their
    tags, the column widths, the direction flag and the hover bookkeeping)
    and the three methods that touch it: [insert_data], [sort_cols] and
    [highlight_row].  The toolkit services the class consumes but does not
    define (text measurement, hit testing, the builtin [float]) are section
    variables. *)

From Stdlib Require Import List String Ascii Bool Arith ZArith QArith Lia.
From Stdlib Require Import Permutation Sorted HexadecimalNat Lqa.
Import ListNotations.
Local Close Scope Q_scope.
Local Open Scope string_scope.
Local Open Scope list_scope.

(** ** Exceptions *)

(** The exceptions the three methods can let escape: [data[0]] and
    [self.cols[idx]] raise [IndexError], [float(x)] raises [ValueError], and
    the widget answers an unknown item or column with [TclError]. *)
Inductive exn : Set := IndexError | ValueError | TclError.

Inductive result (A : Type) : Type :=
| Ok (a : A)
| Raise (e : exn).
Arguments Ok {A} a.
Arguments Raise {A} e.

Definition bind {A B} (c : result A) (k : A -> result B) : result B :=
  match c with
  | Ok a => k a
  | Raise e => Raise e
  end.

Notation "x <- c ;; k" := (bind c (fun x => k))
  (at level 61, c at next level, right associativity).

(** A list comprehension whose body may raise: elements are evaluated left
    to right and the first exception aborts the whole comprehension. *)
Fixpoint comprehension {A B} (f : A -> result B) (l : list A) : result (list B) :=
  match l with
  | [] => Ok []
  | x :: l' => y <- f x ;; ys <- comprehension f l' ;; Ok (y :: ys)
  end.

(** ** Python values used by the sort *)

(** A Python [float]: a finite value (the rational the double denotes), the
    two infinities, or not-a-number. *)
Inductive pyfloat : Set :=
| Finite (q : Q)
| PosInf
| NegInf
| NaN.

(** [a < b] on floats; every comparison with [NaN] is false. *)
Definition float_ltb (a b : pyfloat) : bool :=
  match a, b with
  | NaN, _ => false
  | _, NaN => false
  | NegInf, NegInf => false
  | NegInf, _ => true
  | _, NegInf => false
  | PosInf, _ => false
  | Finite _, PosInf => true
  | Finite x, Finite y => negb (Qle_bool y x)
  end.

(** [a == b] on floats. *)
Definition float_eqb (a b : pyfloat) : bool :=
  match a, b with
  | Finite x, Finite y => Qeq_bool x y
  | PosInf, PosInf => true
  | NegInf, NegInf => true
  | _, _ => false
  end.

Definition is_nan (a : pyfloat) : bool :=
  match a with NaN => true | _ => false end.

(** [a < b] on the pairs [(key, iid)] the sort builds: the first components
    decide unless they are equal, then the item identifiers do. *)
Definition tuple_ltb {K} (keq klt : K -> K -> bool) (a b : K * string) : bool :=
  if keq (fst a) (fst b) then String.ltb (snd a) (snd b) else klt (fst a) (fst b).

(** [needle in hay] on strings is substring containment. *)
Fixpoint str_in (needle hay : string) : bool :=
  String.prefix needle hay
  || match hay with
     | EmptyString => false
     | String _ hay' => str_in needle hay'
     end.

(** ** [list.sort]

    A stable sort that only asks [lt]; [reverse=True] reverses the list,
    sorts it and reverses the outcome, which is how the flag keeps the sort
    stable. *)
Section ListSort.
Context {A : Type} (lt : A -> A -> bool).

Fixpoint insert_sorted (x : A) (l : list A) : list A :=
  match l with
  | [] => [x]
  | y :: l' => if lt y x then y :: insert_sorted x l' else x :: y :: l'
  end.

Definition stable_sort (l : list A) : list A :=
  fold_right insert_sorted [] l.

Definition list_sort (reverse : bool) (l : list A) : list A :=
  if reverse then rev (stable_sort (rev l)) else stable_sort l.
End ListSort.

(** ** The tree-view widget *)

(** One displayed row: the widget-assigned handle, the cell texts and the
    style tags. *)
Record row : Set := mkRow {
  iid : string;
  values : list string;
  tags : list string
}.

(** The widget: the registered columns with their widths, the rows in
    display order, the tags of the invisible root item [''] and the counter
    item identifiers are drawn from. *)
Record treeview : Set := mkTree {
  columns : list (string * Z);
  children : list row;
  root_tags : list string;
  serial : nat
}.

Definition set_columns (cs : list (string * Z)) (tv : treeview) : treeview :=
  mkTree cs (children tv) (root_tags tv) (serial tv).

Definition set_children (rs : list row) (tv : treeview) : treeview :=
  mkTree (columns tv) rs (root_tags tv) (serial tv).

(** Width a fresh column has before the class overwrites it. *)
Definition default_width : Z := 200.

(** [ttk.Treeview(columns=cols, show='headings')]. *)
Definition Treeview (cols : list string) : treeview :=
  mkTree (map (fun c => (c, default_width)) cols) [] [] 0.

(** Identifiers are ["I%03X"] of the pre-incremented counter. *)
Fixpoint hex_upper (d : Hexadecimal.uint) : string :=
  match d with
  | Hexadecimal.Nil => EmptyString
  | Hexadecimal.D0 d' => String "0" (hex_upper d')
  | Hexadecimal.D1 d' => String "1" (hex_upper d')
  | Hexadecimal.D2 d' => String "2" (hex_upper d')
  | Hexadecimal.D3 d' => String "3" (hex_upper d')
  | Hexadecimal.D4 d' => String "4" (hex_upper d')
  | Hexadecimal.D5 d' => String "5" (hex_upper d')
  | Hexadecimal.D6 d' => String "6" (hex_upper d')
  | Hexadecimal.D7 d' => String "7" (hex_upper d')
  | Hexadecimal.D8 d' => String "8" (hex_upper d')
  | Hexadecimal.D9 d' => String "9" (hex_upper d')
  | Hexadecimal.Da d' => String "A" (hex_upper d')
  | Hexadecimal.Db d' => String "B" (hex_upper d')
  | Hexadecimal.Dc d' => String "C" (hex_upper d')
  | Hexadecimal.Dd d' => String "D" (hex_upper d')
  | Hexadecimal.De d' => String "E" (hex_upper d')
  | Hexadecimal.Df d' => String "F" (hex_upper d')
  end.

Fixpoint hex_digits (d : Hexadecimal.uint) : nat :=
  match d with
  | Hexadecimal.Nil => 0
  | Hexadecimal.D0 d' | Hexadecimal.D1 d' | Hexadecimal.D2 d'
  | Hexadecimal.D3 d' | Hexadecimal.D4 d' | Hexadecimal.D5 d'
  | Hexadecimal.D6 d' | Hexadecimal.D7 d' | Hexadecimal.D8 d'
  | Hexadecimal.D9 d' | Hexadecimal.Da d' | Hexadecimal.Db d'
  | Hexadecimal.Dc d' | Hexadecimal.Dd d' | Hexadecimal.De d'
  | Hexadecimal.Df d' => S (hex_digits d')
  end.

Fixpoint zero_pad (k : nat) (d : Hexadecimal.uint) : Hexadecimal.uint :=
  match k with
  | O => d
  | S k' => Hexadecimal.D0 (zero_pad k' d)
  end.

Definition item_id (n : nat) : string :=
  let d := Nat.to_hex_uint n in
  String "I" (hex_upper (zero_pad (3 - hex_digits d) d)).

(** [tree.column(c, 'width')]: columns are looked up by name. *)
Fixpoint column_width (c : string) (cs : list (string * Z)) : result Z :=
  match cs with
  | [] => Raise TclError
  | (c', w) :: cs' => if String.eqb c' c then Ok w else column_width c cs'
  end.

(** [tree.column(c, width=w)]. *)
Definition tree_column (c : string) (w : Z) (tv : treeview) : result treeview :=
  _ <- column_width c (columns tv) ;;
  Ok (set_columns
        (map (fun cw => if String.eqb (fst cw) c then (fst cw, w) else cw)
             (columns tv))
        tv).

(** [tree.insert('', 'end', values=item, tags=tg)]. *)
Definition tree_insert (item tg : list string) (tv : treeview) : treeview :=
  mkTree (columns tv)
         (children tv ++ [mkRow (item_id (S (serial tv))) item tg])
         (root_tags tv)
         (S (serial tv)).

Definition find_row (i : string) (rs : list row) : option row :=
  find (fun r => String.eqb (iid r) i) rs.

(** Data index of the column registered under a name; when a name was
    registered twice the widget's name table keeps the later column. *)
Fixpoint column_index (c : string) (cs : list string) : option nat :=
  match cs with
  | [] => None
  | c' :: cs' =>
      match column_index c cs' with
      | Some k => Some (S k)
      | None => if String.eqb c' c then Some 0%nat else None
      end
  end.

(** [tree.set(child, col)]: the text of one cell; a row with fewer values
    than columns shows the empty string there. *)
Definition tree_set (tv : treeview) (child : row) (col : string) : result string :=
  match column_index col (map fst (columns tv)) with
  | Some k => Ok (nth k (values child) "")
  | None => Raise TclError
  end.

(** [tree.item(i)['tags']]; the identifier [''] names the root item. *)
Definition tree_item_tags (i : string) (tv : treeview) : result (list string) :=
  if String.eqb i "" then Ok (root_tags tv)
  else match find_row i (children tv) with
       | Some r => Ok (tags r)
       | None => Raise TclError
       end.

Definition retag (tg : list string) (r : row) : row :=
  mkRow (iid r) (values r) tg.

(** [tree.item(i, tags=tg)]: the tags are replaced, not extended. *)
Definition tree_item (i : string) (tg : list string) (tv : treeview) : result treeview :=
  if String.eqb i "" then Ok (mkTree (columns tv) (children tv) tg (serial tv))
  else match find_row i (children tv) with
       | Some _ =>
           Ok (set_children
                 (map (fun r => if String.eqb (iid r) i then retag tg r else r)
                      (children tv))
                 tv)
       | None => Raise TclError
       end.

(** [tree.move(i, '', k)]: the item is detached and put back as the [k]-th
    child of the root (last when [k] is past the end). *)
Definition detach (i : string) (rs : list row) : list row :=
  filter (fun r => negb (String.eqb (iid r) i)) rs.

Definition insert_at (k : nat) (r : row) (rs : list row) : list row :=
  firstn k rs ++ r :: skipn k rs.

Definition tree_move (i : string) (k : nat) (tv : treeview) : result treeview :=
  match find_row i (children tv) with
  | Some r => Ok (set_children (insert_at k r (detach i (children tv))) tv)
  | None => Raise TclError
  end.

(** ** The table object *)

(** [self.last_focus = {'iid': ..., 'tags': ...}]; both entries start as
    [None]. *)
Record focus : Set := mkFocus {
  focus_iid : option string;
  focus_tags : option (list string)
}.

Record Table : Set := mkTable {
  cols : list string;
  data : list (list string);
  descending : bool;
  last_focus : focus;
  tree : treeview
}.

Definition with_tree (tv : treeview) (t : Table) : Table :=
  mkTable (cols t) (data t) (descending t) (last_focus t) tv.

Definition hovered_row : string := "hovered_row".

(** The tag tuple the two loops choose from their [odd] flag. *)
Definition shade (odd : bool) : list string :=
  if odd then ["oddrow"] else ["evenrow"].

(** [data[0][0][0:1] in "0123456789"]. *)
Definition looks_numeric (v : string) : bool :=
  str_in (substring 0 1 v) "0123456789".

(** The states of the hover machine, read off [last_focus['iid']] the way
    the handler tests it ([if self.last_focus['iid']]). *)
Inductive hover_state : Set :=
| Unfocused
| FocusedOn (i : string).

Definition hover_of (t : Table) : hover_state :=
  match focus_iid (last_focus t) with
  | Some i => if String.eqb i "" then Unfocused else FocusedOn i
  | None => Unfocused
  end.

Section Widget.

(** [Font().measure]: rendered width of a text, in pixels. *)
Variable measure : string -> Z.

(** The builtin [float] on a string: [None] stands for [ValueError]. *)
Variable float : string -> option pyfloat.

(** [tree.identify_row]: the row drawn at a vertical coordinate, or ['']. *)
Variable identify_row : treeview -> Z -> string.

(** *** [insert_data] *)

(** First loop: one header per column, its width set to the header's. *)
Fixpoint register_columns (cs : list string) (tv : treeview) : result treeview :=
  match cs with
  | [] => Ok tv
  | c :: cs' =>
      tv' <- tree_column c (measure c) tv ;;
      register_columns cs' tv'
  end.

(** Inner loop over [enumerate(item)]. *)
Fixpoint widen_cells (cs : list string) (idx : nat) (item : list string)
         (tv : treeview) : result treeview :=
  match item with
  | [] => Ok tv
  | val :: item' =>
      let iwidth := measure val in
      match nth_error cs idx with
      | None => Raise IndexError
      | Some c =>
          w <- column_width c (columns tv) ;;
          tv' <- (if (w <? iwidth)%Z then tree_column c iwidth tv else Ok tv) ;;
          widen_cells cs (S idx) item' tv'
      end
  end.

(** Outer loop over [self.data]. *)
Fixpoint insert_rows (cs : list string) (odd : bool) (rows : list (list string))
         (tv : treeview) : result treeview :=
  match rows with
  | [] => Ok tv
  | item :: rows' =>
      tv' <- widen_cells cs 0 item (tree_insert item (shade odd) tv) ;;
      insert_rows cs (negb odd) rows' tv'
  end.

Definition insert_data (t : Table) : result Table :=
  tv <- register_columns (cols t) (tree t) ;;
  tv' <- insert_rows (cols t) true (data t) tv ;;
  Ok (with_tree tv' t).

(** [Table(master, cols, data)]: the fields of [__init__], then
    [init_table], which creates the widget and ends in [insert_data]. *)
Definition init_table (cs : list string) (rows : list (list string)) : result Table :=
  insert_data (mkTable cs rows true (mkFocus None None) (Treeview cs)).

(** *** [sort_cols] *)

Definition to_float (x : string * string) : result (pyfloat * string) :=
  match float (fst x) with
  | Some f => Ok (f, snd x)
  | None => Raise ValueError
  end.

(** [(self.tree.set(child, col), child)] for every child. *)
Definition column_data (col : string) (tv : treeview) : result (list (string * string)) :=
  comprehension (fun child => v <- tree_set tv child col ;; Ok (v, iid child))
                (children tv).

(** The sorted handles: numeric keys when the first value looks numeric,
    the texts themselves otherwise. *)
Definition sorted_handles (reverse : bool) (d : list (string * string))
  : result (list string) :=
  match d with
  | [] => Raise IndexError
  | first :: _ =>
      if looks_numeric (fst first)
      then fd <- comprehension to_float d ;;
           Ok (map snd (list_sort (tuple_ltb float_eqb float_ltb) reverse fd))
      else Ok (map snd (list_sort (tuple_ltb String.eqb String.ltb) reverse d))
  end.

(** The loop over [enumerate(data)]: move, tag, flip [odd]. *)
Fixpoint restack (ids : list string) (i : nat) (odd : bool) (tv : treeview)
  : result treeview :=
  match ids with
  | [] => Ok tv
  | id :: ids' =>
      tv1 <- tree_move id i tv ;;
      tv2 <- tree_item id (shade odd) tv1 ;;
      restack ids' (S i) (negb odd) tv2
  end.

(** Nothing is written before the sorted order is known, so an exception
    from the first half leaves the table as it was. *)
Definition sort_cols (col : string) (t : Table) : result Table :=
  d <- column_data col (tree t) ;;
  ids <- sorted_handles (descending t) d ;;
  tv <- restack ids 0 true (tree t) ;;
  Ok (mkTable (cols t) (data t) (negb (descending t)) (last_focus t) tv).

(** *** [highlight_row] *)

(** [iid != self.last_focus['iid']]: a string never equals [None]. *)
Definition differs (i : string) (f : option string) : bool :=
  match f with
  | Some j => negb (String.eqb i j)
  | None => true
  end.

(** The restore step; a [tags=None] argument only queries the item. *)
Definition restore_focus (f : focus) (tv : treeview) : result treeview :=
  match focus_iid f with
  | Some j =>
      if String.eqb j "" then Ok tv
      else match focus_tags f with
           | Some tg => tree_item j tg tv
           | None => _ <- tree_item_tags j tv ;; Ok tv
           end
  | None => Ok tv
  end.

Definition highlight_row (event_y : Z) (t : Table) : result Table :=
  let i := identify_row (tree t) event_y in
  if differs i (focus_iid (last_focus t)) then
    tv1 <- restore_focus (last_focus t) (tree t) ;;
    saved <- tree_item_tags i tv1 ;;
    tv2 <- tree_item i [hovered_row] tv1 ;;
    Ok (mkTable (cols t) (data t) (descending t) (mkFocus (Some i) (Some saved)) tv2)
  else Ok t.

(** *** Reachable states *)

(** The states a table goes through: it is constructed, then header clicks
    and pointer motions arrive one at a time.  A call that raises writes
    nothing, so only completed calls lead to a new state. *)
Inductive reachable : Table -> Prop :=
| reach_init cs rows t :
    init_table cs rows = Ok t -> reachable t
| reach_sort t col t' :
    reachable t -> sort_cols col t = Ok t' -> reachable t'
| reach_motion t y t' :
    reachable t -> highlight_row y t = Ok t' -> reachable t'.

End Widget.

(** ** Concrete collaborators for worked examples *)

(** A hit test for rows drawn 20 pixels high from the top of the widget. *)
Definition identify_by_height (tv : treeview) (y : Z) : string :=
  if (y <? 0)%Z then ""
  else match nth_error (children tv) (Z.to_nat (y / 20)) with
       | Some r => iid r
       | None => ""
       end.

(** Eight pixels per character. *)
Definition measure8 (s : string) : Z := 8 * Z.of_nat (String.length s).

(** [float] on plain decimal literals: an optional sign, digits, and an
    optional fraction; on these inputs it agrees with the builtin.  Other
    strings are rejected. *)
Definition digit_of (c : ascii) : option Z :=
  let n := nat_of_ascii c in
  if ((48 <=? n) && (n <=? 57))%nat then Some (Z.of_nat (n - 48)) else None.

Fixpoint digits_value (acc : Z) (s : string) : option (Z * string) :=
  match s with
  | EmptyString => Some (acc, EmptyString)
  | String c s' =>
      match digit_of c with
      | Some d => digits_value (10 * acc + d) s'
      | None => Some (acc, s)
      end
  end.

Fixpoint pow10 (k : nat) : positive :=
  match k with
  | O => 1%positive
  | S k' => (10 * pow10 k')%positive
  end.

Definition unsigned_literal (s : string) : option Q :=
  match digits_value 0 s with
  | Some (n, EmptyString) =>
      if (String.length s =? 0)%nat then None else Some (inject_Z n)
  | Some (n, String "." frac) =>
      match digits_value n frac with
      | Some (m, EmptyString) =>
          if (String.length s =? 1)%nat then None
          else Some (Qmake m (pow10 (String.length frac)))
      | _ => None
      end
  | _ => None
  end.

Definition dec_float (s : string) : option pyfloat :=
  match s with
  | String "-" s' => option_map (fun q => Finite (- q)%Q) (unsigned_literal s')
  | String "+" s' => option_map Finite (unsigned_literal s')
  | _ => option_map Finite (unsigned_literal s)
  end.

(** ** Predicates used in the statements *)

(** The rows [insert_rows] appends: identifiers follow the counter, tags
    alternate from the [odd] flag. *)
Fixpoint fresh_rows (n : nat) (odd : bool) (rows : list (list string)) : list row :=
  match rows with
  | [] => []
  | item :: rows' =>
      mkRow (item_id (S n)) item (shade odd) :: fresh_rows (S n) (negb odd) rows'
  end.

(** The shade the two loops give to display position [i]. *)
Definition shade_at (i : nat) : list string := shade (Nat.even i).

(** Tags alternate by display position, starting with the odd shade. *)
Definition shaded (rs : list row) : Prop :=
  forall i r, nth_error rs i = Some r -> tags r = shade_at i.

(** [widened tv tv']: every column of [tv] is still there in [tv'] and at
    least as wide. *)
Definition widened (tv tv' : treeview) : Prop :=
  forall c w, column_width c (columns tv) = Ok w ->
              exists w', column_width c (columns tv') = Ok w' /\ (w <= w')%Z.

(** The widget hands out distinct, non-empty item identifiers. *)
Definition tree_wf (tv : treeview) : Prop :=
  NoDup (map iid (children tv)) /\ ~ In "" (map iid (children tv)).

(** The rows the loop of [sort_cols] leaves behind: the rows of [rs] in the
    order of [ids], tagged by position. *)
Fixpoint restacked (rs : list row) (ids : list string) (odd : bool) : list row :=
  match ids with
  | [] => []
  | id :: ids' =>
      match find_row id rs with
      | Some r => retag (shade odd) r :: restacked rs ids' (negb odd)
      | None => restacked rs ids' (negb odd)
      end
  end.

(** What identifies a row and what it shows, without its tags. *)
Definition row_content (r : row) : string * list string := (iid r, values r).

Definition content_of (rs : list row) (id : string) : string * list string :=
  match find_row id rs with
  | Some r => row_content r
  | None => (id, [])
  end.

(** What the sort needs from the keys: an equality test and a strict order
    that agree with each other on the keys in [DK]. *)
Record key_order {K : Type} (DK : K -> Prop) (keq klt : K -> K -> bool) : Prop := {
  keq_sym : forall a b, DK a -> DK b -> keq a b = keq b a;
  keq_trans : forall a b c, DK a -> DK b -> DK c ->
      keq a b = true -> keq b c = true -> keq a c = true;
  klt_eq_l : forall a b c, DK a -> DK b -> DK c ->
      keq a b = true -> klt a c = klt b c;
  klt_eq_r : forall a b c, DK a -> DK b -> DK c ->
      keq b c = true -> klt a b = klt a c;
  klt_trans : forall a b c, DK a -> DK b -> DK c ->
      klt a b = true -> klt b c = true -> klt a c = true;
  klt_asym : forall a b, DK a -> DK b -> klt a b = true -> klt b a = true -> False;
  klt_total : forall a b, DK a -> DK b ->
      keq a b = false -> klt a b = true \/ klt b a = true
}.
Arguments keq_sym {K DK keq klt} _.
Arguments keq_trans {K DK keq klt} _.
Arguments klt_eq_l {K DK keq klt} _.
Arguments klt_eq_r {K DK keq klt} _.
Arguments klt_trans {K DK keq klt} _.
Arguments klt_asym {K DK keq klt} _.
Arguments klt_total {K DK keq klt} _.

(** The text [tree.set] reads in a column, for a column the widget knows. *)
Definition cell (tv : treeview) (col : string) (r : row) : string :=
  match column_index col (map fst (columns tv)) with
  | Some k => nth k (values r) ""
  | None => ""
  end.

(** The decision a sort of [col] takes: numeric when the value sampled from
    the first displayed row passes the test of [sort_cols]. *)
Definition numeric_sort (col : string) (tv : treeview) : bool :=
  match children tv with
  | r :: _ => looks_numeric (cell tv col r)
  | [] => false
  end.

(** The key a numeric sort compares a pair by. *)
Definition float_key (float : string -> option pyfloat) (x : string * string)
  : pyfloat * string :=
  (match float (fst x) with Some f => f | None => NaN end, snd x).

(** No value of the column reads as not-a-number. *)
Definition nan_free (float : string -> option pyfloat) (col : string)
           (tv : treeview) : Prop :=
  Forall (fun r => float (cell tv col r) <> Some NaN) (children tv).

(** The pair [sort_cols] builds for a row, and its numeric counterpart. *)
Definition text_pair (tv : treeview) (col : string) (r : row) : string * string :=
  (cell tv col r, iid r).

Definition float_pair (float : string -> option pyfloat) (tv : treeview)
           (col : string) (r : row) : pyfloat * string :=
  float_key float (text_pair tv col r).

(** [r1]'s value in the column is smaller than [r2]'s, in the comparison a
    numeric or a text sort uses. *)
Definition row_ltb (float : string -> option pyfloat) (numeric : bool)
           (tv : treeview) (col : string) (r1 r2 : row) : bool :=
  if numeric
  then float_ltb (fst (float_pair float tv col r1)) (fst (float_pair float tv col r2))
  else String.ltb (cell tv col r1) (cell tv col r2).

(** No row is displayed above a row with a larger value. *)
Definition displayed_descending (float : string -> option pyfloat) (numeric : bool)
           (tv : treeview) (col : string) (rs : list row) : Prop :=
  forall i j r1 r2, i < j ->
    nth_error rs i = Some r1 -> nth_error rs j = Some r2 ->
    row_ltb float numeric tv col r1 r2 = false.

(** ** Hover bookkeeping *)

(** The hit test answers [''] or the identifier of a displayed row. *)
Definition hit_test_sound (identify_row : treeview -> Z -> string) : Prop :=
  forall tv y, identify_row tv y = "" \/ In (identify_row tv y) (map iid (children tv)).

Definition is_hovered (r : row) : Prop := In hovered_row (tags r).

(** [tree.item(i, tags=tg)] on the list of rows. *)
Definition with_tags (i : string) (tg : list string) (rs : list row) : list row :=
  map (fun r => if String.eqb (iid r) i then retag tg r else r) rs.

(** What holds of the hover bookkeeping in every state the handlers can
    produce: only the focused row can carry the hover tag, and a focused
    row is displayed and has hover-free tags saved for it. *)
Definition hover_inv (t : Table) : Prop :=
  tree_wf (tree t) /\
  (forall r, In r (children (tree t)) -> is_hovered r ->
             focus_iid (last_focus t) = Some (iid r)) /\
  (forall i, focus_iid (last_focus t) = Some i -> i <> "" ->
             In i (map iid (children (tree t))) /\
             exists tg, focus_tags (last_focus t) = Some tg /\ ~ In hovered_row tg).

(** ** Worked examples *)

(** The two-row table of names and scores, in the states the examples
    visit. *)
Definition bob (tg : list string) : row := mkRow "I001" ["Bob"; "5"] tg.
Definition amy (tg : list string) : row := mkRow "I002" ["Amy"; "12"] tg.

Definition scores_view (desc : bool) (f : focus) (rs : list row)
           (root : list string) : Table :=
  mkTable ["Name"; "Score"] [["Bob"; "5"]; ["Amy"; "12"]] desc f
          (mkTree [("Name", 32%Z); ("Score", 40%Z)] rs root 2).

Definition no_focus : focus := mkFocus None None.

(** As constructed. *)
Definition scores_table : Table :=
  scores_view true no_focus [bob ["oddrow"]; amy ["evenrow"]] [].

(** After one click on the Score header. *)
Definition scores_sorted : Table :=
  scores_view false no_focus [amy ["oddrow"]; bob ["evenrow"]] [].

(** As constructed, with the pointer on Bob's row. *)
Definition scores_hover_bob : Table :=
  scores_view true (mkFocus (Some "I001") (Some ["oddrow"]))
              [bob [hovered_row]; amy ["evenrow"]] [].

(** Then sorted by Score while the pointer rests on Bob's row. *)
Definition scores_hover_sorted : Table :=
  scores_view false (mkFocus (Some "I001") (Some ["oddrow"]))
              [amy ["oddrow"]; bob ["evenrow"]] [].

(** Then the pointer moves up to Amy's row, now the first. *)
Definition scores_hover_stale : Table :=
  scores_view false (mkFocus (Some "I002") (Some ["oddrow"]))
              [amy [hovered_row]; bob ["oddrow"]] [].

(** From [scores_hover_bob], the pointer moves down to Amy's row. *)
Definition scores_hover_amy : Table :=
  scores_view true (mkFocus (Some "I002") (Some ["evenrow"]))
              [bob ["oddrow"]; amy [hovered_row]] [].

(** From [scores_hover_bob], the pointer leaves the rows. *)
Definition scores_hover_none : Table :=
  scores_view true (mkFocus (Some "") (Some []))
              [bob ["oddrow"]; amy ["evenrow"]] [hovered_row].

(** A column whose values are distinct and start with a sign or a digit. *)
Definition mixed_view (desc : bool) (rs : list row) : Table :=
  mkTable ["v"] [["-5"]; ["10"]; ["9"]] desc no_focus
          (mkTree [("v", 16%Z)] rs [] 3).

Definition mixed_table : Table :=
  mixed_view true [mkRow "I001" ["-5"] ["oddrow"];
                   mkRow "I002" ["10"] ["evenrow"];
                   mkRow "I003" ["9"] ["oddrow"]].

Definition mixed_sorted : Table :=
  mixed_view false [mkRow "I003" ["9"] ["oddrow"];
                    mkRow "I002" ["10"] ["evenrow"];
                    mkRow "I001" ["-5"] ["oddrow"]].

Definition mixed_resorted : Table :=
  mixed_view true [mkRow "I001" ["-5"] ["oddrow"];
                   mkRow "I003" ["9"] ["evenrow"];
                   mkRow "I002" ["10"] ["oddrow"]].

(** A column that starts with an empty cell, and one with a malformed
    number below a digit. *)
Definition blank_first : Table :=
  mkTable ["v"] [[""]; ["a"]] true no_focus
          (mkTree [("v", 8%Z)]
                  [mkRow "I001" [""] ["oddrow"]; mkRow "I002" ["a"] ["evenrow"]]
                  [] 2).

Definition malformed_second : Table :=
  mkTable ["v"] [["1"]; ["x"]] true no_focus
          (mkTree [("v", 8%Z)]
                  [mkRow "I001" ["1"] ["oddrow"]; mkRow "I002" ["x"] ["evenrow"]]
                  [] 2).

(** ** Predicates for the further properties *)

(** No row is displayed above a row with a smaller value. *)
Definition displayed_ascending (float : string -> option pyfloat) (numeric : bool)
           (tv : treeview) (col : string) (rs : list row) : Prop :=
  forall i j r1 r2, i < j ->
    nth_error rs i = Some r1 -> nth_error rs j = Some r2 ->
    row_ltb float numeric tv col r2 r1 = false.

(** [r1] and [r2] tie in the column: their keys are [==] in the comparison
    a numeric or a text sort uses. *)
Definition row_eqb (float : string -> option pyfloat) (numeric : bool)
           (tv : treeview) (col : string) (r1 r2 : row) : bool :=
  if numeric
  then float_eqb (fst (float_pair float tv col r1)) (fst (float_pair float tv col r2))
  else String.eqb (cell tv col r1) (cell tv col r2).

(** Every column is at least as wide as its header and as each of the
    cells [self.data] has for it. *)
Definition widths_cover (measure : string -> Z) (t : Table) : Prop :=
  forall j c, nth_error (cols t) j = Some c ->
    exists w, column_width c (columns (tree t)) = Ok w /\
      (measure c <= w)%Z /\
      (forall item v, In item (data t) -> nth_error item j = Some v ->
                      (measure v <= w)%Z).

(** Two rows that show the same text, as constructed and after one click. *)
Definition twins_table : Table :=
  mkTable ["v"] [["a"]; ["a"]] true no_focus
          (mkTree [("v", 8%Z)]
                  [mkRow "I001" ["a"] ["oddrow"]; mkRow "I002" ["a"] ["evenrow"]]
                  [] 2).

Definition twins_sorted : Table :=
  mkTable ["v"] [["a"]; ["a"]] false no_focus
          (mkTree [("v", 8%Z)]
                  [mkRow "I002" ["a"] ["oddrow"]; mkRow "I001" ["a"] ["evenrow"]]
                  [] 2).

(** A column whose first cell is wider than its header and whose second
    cell is narrower. *)
Definition wide_cell_table : Table :=
  mkTable ["id"] [["alpha"]; ["b"]] true no_focus
          (mkTree [("id", 40%Z)]
                  [mkRow "I001" ["alpha"] ["oddrow"]; mkRow "I002" ["b"] ["evenrow"]]
                  [] 2).

(** The numeric check as the specification words it: the first character
    of the sampled value is an ASCII digit.  [looks_numeric] is the test the
    code runs. *)
Definition digit_prefix (v : string) : bool :=
  match v with
  | String c _ => match digit_of c with Some _ => true | None => false end
  | EmptyString => false
  end.

(** * Properties *)

(** ** The exception monad *)

Lemma bind_Ok {A B} (c : result A) (k : A -> result B) (b : B) :
  bind c k = Ok b -> exists a, c = Ok a /\ k a = Ok b.
Proof. destruct c as [a|e]; simpl; intros H; [eauto | discriminate]. Qed.

Ltac bind_inv H :=
  let a := fresh "x" in
  let E := fresh "E" in
  apply bind_Ok in H; destruct H as (a & E & H).

Lemma comprehension_length {A B} (f : A -> result B) l l' :
  comprehension f l = Ok l' -> List.length l' = List.length l.
Proof.
  revert l'; induction l as [|x l IH]; simpl; intros l' H.
  - inversion H; reflexivity.
  - bind_inv H. bind_inv H. inversion H; subst. simpl. f_equal. now apply IH.
Qed.

Lemma comprehension_Forall2 {A B} (f : A -> result B) l l' :
  comprehension f l = Ok l' -> Forall2 (fun x y => f x = Ok y) l l'.
Proof.
  revert l'; induction l as [|x l IH]; simpl; intros l' H.
  - inversion H; constructor.
  - bind_inv H. bind_inv H. inversion H; subst. constructor; auto.
Qed.

Lemma comprehension_total {A B} (f : A -> result B) l :
  Forall (fun x => exists y, f x = Ok y) l -> exists l', comprehension f l = Ok l'.
Proof.
  induction 1 as [|x l [y Hy] _ [l' IH]]; simpl.
  - eauto.
  - rewrite Hy; simpl. rewrite IH; simpl. eauto.
Qed.

Lemma comprehension_raises {A B} (f : A -> result B) l e :
  comprehension f l = Raise e -> exists x, In x l /\ f x = Raise e.
Proof.
  induction l as [|x l IH]; simpl; intros H; [discriminate|].
  destruct (f x) as [y|e'] eqn:Hx; simpl in H.
  - destruct (comprehension f l) as [ys|e'']; simpl in H; [discriminate|].
    inversion H; subst. destruct IH as (z & Hz & Hfz); eauto.
  - inversion H; subst; eauto.
Qed.

(** ** Item identifiers *)

Lemma hex_upper_inj d1 d2 : hex_upper d1 = hex_upper d2 -> d1 = d2.
Proof.
  revert d2; induction d1; intros d2 H; destruct d2; simpl in H;
    try discriminate; try reflexivity;
    injection H as H; f_equal; auto.
Qed.

Lemma of_hex_zero_pad k d : Nat.of_hex_uint (zero_pad k d) = Nat.of_hex_uint d.
Proof. induction k as [|k IH]; simpl; [reflexivity|exact IH]. Qed.

Lemma item_id_inj n m : item_id n = item_id m -> n = m.
Proof.
  unfold item_id; intros H. injection H as H.
  apply hex_upper_inj in H.
  apply (f_equal Nat.of_hex_uint) in H.
  rewrite !of_hex_zero_pad, !Unsigned.of_to in H. exact H.
Qed.

Lemma item_id_nonempty n : item_id n <> "".
Proof. unfold item_id; discriminate. Qed.

(** ** Column widths *)

Lemma column_width_update c c' w cs :
  column_width c'
    (map (fun cw : string * Z => if String.eqb (fst cw) c then (fst cw, w) else cw) cs)
  = if String.eqb c' c
    then (_ <- column_width c cs ;; Ok w)
    else column_width c' cs.
Proof.
  induction cs as [|[n v] cs IH]; simpl.
  - now destruct (String.eqb c' c).
  - destruct (String.eqb_spec n c) as [->|Hn]; simpl.
    + destruct (String.eqb_spec c c') as [->|Hc].
      * now rewrite String.eqb_refl.
      * rewrite IH. destruct (String.eqb_spec c' c); congruence.
    + destruct (String.eqb_spec n c') as [->|Hc].
      * destruct (String.eqb_spec c' c); congruence.
      * rewrite IH. destruct (String.eqb_spec c' c) as [->|]; [|reflexivity].
        reflexivity.
Qed.

Lemma tree_column_Ok c w tv tv' :
  tree_column c w tv = Ok tv' ->
  children tv' = children tv /\ serial tv' = serial tv /\
  root_tags tv' = root_tags tv /\
  map fst (columns tv') = map fst (columns tv) /\
  column_width c (columns tv') = Ok w /\
  (forall c', c' <> c -> column_width c' (columns tv') = column_width c' (columns tv)).
Proof.
  unfold tree_column; intros H. bind_inv H. inversion H; subst; clear H; simpl.
  repeat split.
  - rewrite map_map. apply map_ext. intros [n v]; simpl.
    now destruct (String.eqb n c).
  - rewrite column_width_update, String.eqb_refl, E. reflexivity.
  - intros c' Hc. rewrite column_width_update.
    destruct (String.eqb_spec c' c); congruence.
Qed.

Lemma column_width_known c cs :
  In c (map fst cs) -> exists w, column_width c cs = Ok w.
Proof.
  induction cs as [|[n v] cs IH]; simpl; [tauto|].
  intros [->|H].
  - rewrite String.eqb_refl; eauto.
  - destruct (String.eqb n c); eauto.
Qed.

Lemma column_width_In c cs w :
  column_width c cs = Ok w -> In c (map fst cs).
Proof.
  induction cs as [|[n v] cs IH]; simpl; [discriminate|].
  destruct (String.eqb_spec n c); auto.
Qed.

Lemma widened_refl tv : widened tv tv.
Proof. intros c w H; exists w; split; [exact H | lia]. Qed.

Lemma widened_trans tv1 tv2 tv3 :
  widened tv1 tv2 -> widened tv2 tv3 -> widened tv1 tv3.
Proof.
  intros H12 H23 c w H.
  destruct (H12 c w H) as (w2 & H2 & Hle2).
  destruct (H23 c w2 H2) as (w3 & H3 & Hle3).
  exists w3; split; [exact H3 | lia].
Qed.

(** ** Construction *)

Lemma fresh_rows_values n odd rows : map values (fresh_rows n odd rows) = rows.
Proof.
  revert n odd; induction rows as [|item rows IH]; intros; simpl; [|rewrite IH];
    reflexivity.
Qed.

Lemma fresh_rows_iid n odd rows :
  map iid (fresh_rows n odd rows) = map item_id (seq (S n) (List.length rows)).
Proof.
  revert n odd; induction rows as [|item rows IH]; intros; simpl; [|rewrite IH];
    reflexivity.
Qed.

Lemma fresh_rows_tags n odd rows i r :
  nth_error (fresh_rows n odd rows) i = Some r ->
  tags r = shade (if Nat.even i then odd else negb odd).
Proof.
  revert n odd i; induction rows as [|item rows IH]; intros n odd i H.
  - destruct i; discriminate.
  - destruct i as [|i]; simpl in H.
    + inversion H; reflexivity.
    + apply IH in H. rewrite H. rewrite Nat.even_succ, <- Nat.negb_even.
      destruct (Nat.even i), odd; reflexivity.
Qed.

Lemma fresh_rows_shaded rows : shaded (fresh_rows 0 true rows).
Proof.
  intros i r H. apply fresh_rows_tags in H. rewrite H. unfold shade_at.
  now destruct (Nat.even i).
Qed.

Lemma item_id_NoDup n k : NoDup (map item_id (seq n k)).
Proof.
  apply Finite.Injective_map_NoDup; [exact item_id_inj | apply seq_NoDup].
Qed.

Section Construction.
Variable measure : string -> Z.

Lemma register_columns_Ok cs : forall tv,
  incl cs (map fst (columns tv)) ->
  exists tv', register_columns measure cs tv = Ok tv' /\
    children tv' = children tv /\ serial tv' = serial tv /\
    root_tags tv' = root_tags tv /\
    map fst (columns tv') = map fst (columns tv) /\
    (forall c, In c cs -> column_width c (columns tv') = Ok (measure c)) /\
    (forall c, ~ In c cs ->
               column_width c (columns tv') = column_width c (columns tv)).
Proof.
  induction cs as [|c cs IH]; intros tv Hin; simpl.
  - exists tv; repeat split; auto. intros c [].
  - destruct (column_width_known c (columns tv)) as [w Hw];
      [apply Hin; now left|].
    destruct (tree_column c (measure c) tv) as [tv1|e] eqn:E1;
      [|unfold tree_column in E1; rewrite Hw in E1; discriminate].
    destruct (tree_column_Ok _ _ _ _ E1) as (Hc & Hs & Hr & Hn & Hset & Hoth).
    destruct (IH tv1) as (tv' & E' & Hc' & Hs' & Hr' & Hn' & Hin' & Hout').
    { rewrite Hn. intros x Hx; apply Hin; now right. }
    exists tv'; simpl; repeat split; try congruence.
    + intros c' [<-|Hc0]; [|now apply Hin'].
      destruct (in_dec string_dec c cs) as [Hcs|Hcs]; [now apply Hin'|].
      rewrite Hout' by assumption. exact Hset.
    + intros c' Hc0. rewrite Hout' by tauto. apply Hoth. intros ->; tauto.
Qed.

Lemma widen_cells_Ok cs item : forall idx tv tv',
  widen_cells measure cs idx item tv = Ok tv' ->
  children tv' = children tv /\ serial tv' = serial tv /\
  root_tags tv' = root_tags tv /\
  map fst (columns tv') = map fst (columns tv) /\
  widened tv tv' /\
  (forall k v c, nth_error item k = Some v -> nth_error cs (idx + k) = Some c ->
     exists w, column_width c (columns tv') = Ok w /\ (measure v <= w)%Z).
Proof.
  induction item as [|val item IH]; intros idx tv tv' H; simpl in H.
  - inversion H; subst. repeat split; auto using widened_refl.
    intros [|k] v c Hk; discriminate.
  - destruct (nth_error cs idx) as [c|] eqn:Hc; [|discriminate].
    bind_inv H. rename x into w. bind_inv H. rename x into tv1.
    assert (H1 : children tv1 = children tv /\ serial tv1 = serial tv /\
                 root_tags tv1 = root_tags tv /\
                 map fst (columns tv1) = map fst (columns tv) /\
                 widened tv tv1 /\
                 exists w1, column_width c (columns tv1) = Ok w1 /\
                            (measure val <= w1)%Z).
    { destruct (Z.ltb_spec w (measure val)) as [Hlt|Hge].
      - destruct (tree_column_Ok _ _ _ _ E0) as (Hc1 & Hs1 & Hr1 & Hn1 & Hset & Hoth).
        repeat split; auto.
        + intros c0 w0 H0. destruct (string_dec c0 c) as [->|Hne].
          * exists (measure val). split; [exact Hset|]. rewrite E in H0.
            inversion H0; subst. lia.
          * exists w0. rewrite Hoth by assumption. split; [exact H0|lia].
        + exists (measure val); split; [exact Hset|lia].
      - inversion E0; subst. repeat split; auto using widened_refl.
        exists w; split; [exact E|lia]. }
    destruct H1 as (Hc1 & Hs1 & Hr1 & Hn1 & Hw1 & w1 & Hcw1 & Hle1).
    destruct (IH _ _ _ H) as (Hc2 & Hs2 & Hr2 & Hn2 & Hw2 & Hcells).
    repeat split; try congruence.
    + eapply widened_trans; eassumption.
    + intros [|k] v c0 Hk Hcs; simpl in Hk.
      * inversion Hk; subst. rewrite Nat.add_0_r, Hc in Hcs.
        inversion Hcs; subst.
        destruct (Hw2 _ _ Hcw1) as (w2 & Hcw2 & Hle2).
        exists w2; split; [exact Hcw2|lia].
      * apply (Hcells k v c0 Hk). now rewrite <- Nat.add_succ_comm in Hcs.
Qed.

Lemma widen_cells_total cs item : forall idx tv,
  incl cs (map fst (columns tv)) ->
  idx + List.length item <= List.length cs ->
  exists tv', widen_cells measure cs idx item tv = Ok tv'.
Proof.
  induction item as [|val item IH]; intros idx tv Hin Hlen; simpl.
  - eauto.
  - simpl in Hlen.
    destruct (nth_error cs idx) as [c|] eqn:Hc;
      [|apply nth_error_None in Hc; lia].
    destruct (column_width_known c (columns tv)) as [w Hw];
      [apply Hin; eapply nth_error_In; eassumption|].
    rewrite Hw; simpl.
    destruct (w <? measure val)%Z.
    + destruct (tree_column c (measure val) tv) as [tv1|e] eqn:E1;
        [|unfold tree_column in E1; rewrite Hw in E1; discriminate].
      simpl. apply IH; [|lia].
      destruct (tree_column_Ok _ _ _ _ E1) as (_ & _ & _ & Hn & _). now rewrite Hn.
    + simpl. apply IH; [assumption|lia].
Qed.

Lemma insert_rows_Ok cs rows : forall odd tv tv',
  insert_rows measure cs odd rows tv = Ok tv' ->
  children tv' = children tv ++ fresh_rows (serial tv) odd rows /\
  root_tags tv' = root_tags tv /\
  map fst (columns tv') = map fst (columns tv) /\
  widened tv tv' /\
  (forall item k v c, In item rows -> nth_error item k = Some v ->
     nth_error cs k = Some c ->
     exists w, column_width c (columns tv') = Ok w /\ (measure v <= w)%Z).
Proof.
  induction rows as [|item rows IH]; intros odd tv tv' H; simpl in H.
  - inversion H; subst. rewrite app_nil_r. repeat split; auto using widened_refl.
    intros item k v c [].
  - bind_inv H. rename x into tv1.
    destruct (widen_cells_Ok _ _ _ _ _ E) as (Hc1 & Hs1 & Hr1 & Hn1 & Hw1 & Hcells).
    destruct (IH _ _ _ H) as (Hc2 & Hr2 & Hn2 & Hw2 & Hrows).
    simpl in *. repeat split; try congruence.
    + rewrite Hc2, Hc1, Hs1, <- app_assoc. reflexivity.
    + eapply widened_trans; eassumption.
    + intros item0 k v c [<-|Hin] Hk Hcs.
      * destruct (Hcells k v c Hk Hcs) as (w & Hw & Hle).
        destruct (Hw2 _ _ Hw) as (w' & Hw' & Hle').
        exists w'; split; [exact Hw'|lia].
      * eapply Hrows; eassumption.
Qed.

Lemma insert_rows_total cs rows : forall odd tv,
  incl cs (map fst (columns tv)) ->
  Forall (fun item => List.length item <= List.length cs) rows ->
  exists tv', insert_rows measure cs odd rows tv = Ok tv'.
Proof.
  induction rows as [|item rows IH]; intros odd tv Hin Hlen; simpl.
  - eauto.
  - inversion Hlen; subst.
    destruct (widen_cells_total cs item 0 (tree_insert item (shade odd) tv))
      as [tv1 E1]; [exact Hin|simpl; lia|].
    rewrite E1; simpl. apply IH; [|assumption].
    destruct (widen_cells_Ok _ _ _ _ _ E1) as (_ & _ & _ & Hn & _).
    now rewrite Hn.
Qed.

(** What a finished construction looks like. *)
Lemma init_table_Ok cs rows t :
  init_table measure cs rows = Ok t ->
  cols t = cs /\ data t = rows /\ descending t = true /\
  last_focus t = mkFocus None None /\
  children (tree t) = fresh_rows 0 true rows /\
  root_tags (tree t) = [] /\
  map fst (columns (tree t)) = cs.
Proof.
  unfold init_table, insert_data; simpl; intros H.
  bind_inv H. rename x into tv1. bind_inv H. rename x into tv2.
  inversion H; subst; clear H; simpl.
  destruct (register_columns_Ok cs (Treeview cs))
    as (tv1' & E1 & Hc1 & Hs1 & Hr1 & Hn1 & _).
  { simpl. rewrite map_map; simpl. rewrite map_id. apply incl_refl. }
  rewrite E in E1; inversion E1; subst tv1'.
  destruct (insert_rows_Ok _ _ _ _ _ E0) as (Hc2 & Hr2 & Hn2 & _).
  repeat split; auto.
  - rewrite Hc2, Hc1, Hs1. reflexivity.
  - rewrite Hr2, Hr1. reflexivity.
  - rewrite Hn2, Hn1. simpl. rewrite map_map; simpl. apply map_id.
Qed.

Lemma init_table_total cs rows :
  Forall (fun item => List.length item <= List.length cs) rows ->
  exists t, init_table measure cs rows = Ok t.
Proof.
  intros Hlen. unfold init_table, insert_data; simpl.
  destruct (register_columns_Ok cs (Treeview cs))
    as (tv1 & E1 & _ & _ & _ & Hn1 & _).
  { simpl. rewrite map_map; simpl. rewrite map_id. apply incl_refl. }
  rewrite E1; simpl.
  destruct (insert_rows_total cs rows true tv1) as [tv2 E2]; [|assumption|].
  { rewrite Hn1; simpl. rewrite map_map; simpl. rewrite map_id. apply incl_refl. }
  rewrite E2; simpl. eauto.
Qed.

End Construction.

(** ** [list.sort] sorts *)

Section SortFacts.
Context {A I : Type} (lt : A -> A -> bool).

(** The elements the order behaves well on, and the component that tells
    two list elements apart. *)
Variable D : A -> Prop.
Variable key : A -> I.

Hypothesis lt_trans : forall a b c, D a -> D b -> D c ->
  lt a b = true -> lt b c = true -> lt a c = true.
Hypothesis lt_asym : forall a b, D a -> D b ->
  lt a b = true -> lt b a = true -> False.
Hypothesis lt_total : forall a b, D a -> D b -> key a <> key b ->
  lt a b = true \/ lt b a = true.

Let ltP (a b : A) : Prop := lt a b = true.

Lemma insert_sorted_perm x l : Permutation (insert_sorted lt x l) (x :: l).
Proof.
  induction l as [|y l IH]; simpl; [reflexivity|].
  destruct (lt y x); [|reflexivity].
  rewrite IH. apply perm_swap.
Qed.

Lemma stable_sort_perm l : Permutation (stable_sort lt l) l.
Proof.
  induction l as [|x l IH]; simpl; [reflexivity|].
  rewrite insert_sorted_perm. now constructor.
Qed.

Lemma list_sort_perm reverse l : Permutation (list_sort lt reverse l) l.
Proof.
  destruct reverse; simpl; [|apply stable_sort_perm].
  rewrite <- Permutation_rev, stable_sort_perm. symmetry. apply Permutation_rev.
Qed.

Lemma insert_sorted_sorted x l :
  D x -> Forall D l -> ~ In (key x) (map key l) ->
  StronglySorted ltP l -> StronglySorted ltP (insert_sorted lt x l).
Proof.
  intros Dx; induction l as [|y l IH]; intros Dl Hx Hs; simpl.
  - repeat constructor.
  - inversion Dl as [|? ? Dy Dl']; subst. inversion Hs as [|? ? Hs' Hy]; subst.
    simpl in Hx.
    destruct (lt y x) eqn:Hyx.
    + constructor; [apply IH; tauto|].
      eapply Permutation_Forall; [symmetry; apply insert_sorted_perm|].
      constructor; assumption.
    + assert (Hxy : ltP x y).
      { destruct (lt_total x y Dx Dy) as [H|H];
          [intros E; apply Hx; left; now symmetry|exact H|].
        congruence. }
      constructor; [assumption|]. constructor; [exact Hxy|].
      rewrite Forall_forall in Hy, Dl' |- *. intros z Hz.
      apply (lt_trans x y z); auto. apply Hy; assumption.
Qed.

Lemma stable_sort_sorted l :
  Forall D l -> NoDup (map key l) -> StronglySorted ltP (stable_sort lt l).
Proof.
  induction l as [|x l IH]; intros Dl Hnd; simpl; [constructor|].
  inversion Dl; subst. inversion Hnd; subst.
  apply insert_sorted_sorted; auto.
  - eapply Permutation_Forall; [symmetry; apply stable_sort_perm|assumption].
  - intros Hin. eapply Permutation_in in Hin;
      [|apply Permutation_map, stable_sort_perm]. tauto.
Qed.

(** A list has at most one arrangement that is strictly increasing. *)
Lemma sorted_unique l1 : forall l2,
  Forall D l1 -> Permutation l1 l2 ->
  StronglySorted ltP l1 -> StronglySorted ltP l2 -> l1 = l2.
Proof.
  induction l1 as [|a l1 IH]; intros l2 Dl Hp H1 H2.
  - apply Permutation_nil in Hp. now subst.
  - destruct l2 as [|b l2];
      [apply Permutation_sym, Permutation_nil in Hp; discriminate|].
    inversion H1 as [|? ? H1' Ha]; subst. inversion H2 as [|? ? H2' Hb]; subst.
    inversion Dl as [|? ? Da Dl']; subst.
    assert (Db : D b).
    { eapply (proj1 (Forall_forall D (a :: l1))); [exact Dl|].
      eapply Permutation_in; [symmetry; exact Hp|now left]. }
    assert (Hab : a = b).
    { assert (Ia : In a (b :: l2))
        by (eapply Permutation_in; [exact Hp|now left]).
      assert (Ib : In b (a :: l1))
        by (eapply Permutation_in; [symmetry; exact Hp|now left]).
      destruct Ia as [->|Ia]; [reflexivity|].
      destruct Ib as [->|Ib]; [reflexivity|].
      rewrite Forall_forall in Ha, Hb.
      exfalso. apply (lt_asym a b Da Db); [apply Ha|apply Hb]; assumption. }
    subst b. f_equal. apply IH; auto.
    eapply Permutation_cons_inv; exact Hp.
Qed.

Lemma stable_sort_invariant l l' :
  Forall D l -> NoDup (map key l) -> Permutation l l' ->
  stable_sort lt l = stable_sort lt l'.
Proof.
  intros Dl Hnd Hp.
  assert (Dl' : Forall D l') by (eapply Permutation_Forall; eassumption).
  assert (Hnd' : NoDup (map key l'))
    by (eapply Permutation_NoDup; [apply Permutation_map; exact Hp|assumption]).
  apply sorted_unique.
  - eapply Permutation_Forall; [symmetry; apply stable_sort_perm|assumption].
  - rewrite !stable_sort_perm. exact Hp.
  - now apply stable_sort_sorted.
  - now apply stable_sort_sorted.
Qed.

(** Sorting with the other direction flag, from any arrangement of the
    same elements, gives the exact mirror image. *)
Lemma list_sort_mirror reverse l l' :
  Forall D l -> NoDup (map key l) -> Permutation l l' ->
  list_sort lt (negb reverse) l' = rev (list_sort lt reverse l).
Proof.
  intros Dl Hnd Hp.
  assert (Dl' : Forall D l') by (eapply Permutation_Forall; eassumption).
  assert (Hnd' : NoDup (map key l'))
    by (eapply Permutation_NoDup; [apply Permutation_map; exact Hp|assumption]).
  destruct reverse; simpl.
  - rewrite rev_involutive. apply stable_sort_invariant; auto.
    rewrite <- Hp. apply Permutation_rev.
  - f_equal. symmetry. apply stable_sort_invariant; auto.
    rewrite <- Permutation_rev. exact Hp.
Qed.

(** With the flag set the outcome is strictly decreasing, without it
    strictly increasing. *)
Lemma list_sort_sorted (reverse : bool) l :
  Forall D l -> NoDup (map key l) ->
  StronglySorted (fun a b => if reverse return Prop then ltP b a else ltP a b)
                 (list_sort lt reverse l).
Proof.
  intros Dl Hnd. destruct reverse; simpl; [|now apply stable_sort_sorted].
  assert (Hs : StronglySorted ltP (stable_sort lt (rev l))).
  { apply stable_sort_sorted.
    - eapply Permutation_Forall; [apply Permutation_rev|assumption].
    - eapply Permutation_NoDup; [apply Permutation_map, Permutation_rev|assumption]. }
  induction Hs as [|a s Hs IH Ha]; simpl; [constructor|].
  clear Dl Hnd.
  assert (Hsnoc : forall s', StronglySorted (fun a b => ltP b a) s' ->
                             Forall (fun b => ltP a b) s' ->
                             StronglySorted (fun a b => ltP b a) (s' ++ [a])).
  { induction s' as [|b s' IH']; simpl; intros Hs' Hall.
    - repeat constructor.
    - inversion Hs'; subst. inversion Hall; subst.
      constructor; [apply IH'; assumption|].
      apply Forall_app; split; [assumption|]. repeat constructor; assumption. }
  apply Hsnoc; [exact IH|].
  eapply Permutation_Forall; [apply Permutation_rev|exact Ha].
Qed.

End SortFacts.

(** ** The orders the sort compares with *)

Lemma ascii_compare_refl x : Ascii.compare x x = Eq.
Proof. unfold Ascii.compare. apply N.compare_refl. Qed.

Lemma string_compare_refl s : String.compare s s = Eq.
Proof.
  induction s as [|x s IH]; simpl; [reflexivity|].
  now rewrite ascii_compare_refl.
Qed.

Lemma string_compare_trans a : forall b c,
  String.compare a b = Lt -> String.compare b c = Lt -> String.compare a c = Lt.
Proof.
  induction a as [|x a IH]; intros [|y b] [|z c]; simpl; try discriminate; auto.
  destruct (Ascii.compare x y) eqn:Hxy; try discriminate;
    destruct (Ascii.compare y z) eqn:Hyz; try discriminate; intros H1 H2.
  - apply Ascii.compare_eq_iff in Hxy, Hyz; subst.
    rewrite ascii_compare_refl. eauto.
  - apply Ascii.compare_eq_iff in Hxy; subst. now rewrite Hyz.
  - apply Ascii.compare_eq_iff in Hyz; subst. now rewrite Hxy.
  - unfold Ascii.compare in *. rewrite N.compare_lt_iff in Hxy, Hyz.
    assert (H : (N_of_ascii x < N_of_ascii z)%N) by (eapply N.lt_trans; eassumption).
    apply N.compare_lt_iff in H. now rewrite H.
Qed.

Lemma string_ltb_trans a b c :
  String.ltb a b = true -> String.ltb b c = true -> String.ltb a c = true.
Proof.
  unfold String.ltb.
  destruct (String.compare a b) eqn:Hab; try discriminate.
  destruct (String.compare b c) eqn:Hbc; try discriminate.
  now rewrite (string_compare_trans _ _ _ Hab Hbc).
Qed.

Lemma string_ltb_asym a b : String.ltb a b = true -> String.ltb b a = true -> False.
Proof.
  unfold String.ltb. rewrite (String.compare_antisym b a).
  destruct (String.compare a b); simpl; discriminate.
Qed.

Lemma string_ltb_total a b :
  a <> b -> String.ltb a b = true \/ String.ltb b a = true.
Proof.
  intros Hne. unfold String.ltb. rewrite (String.compare_antisym b a).
  destruct (String.compare a b) eqn:Hab; simpl; auto.
  apply String.compare_eq_iff in Hab. contradiction.
Qed.

Lemma string_ltb_irrefl a : String.ltb a a = false.
Proof. unfold String.ltb. now rewrite string_compare_refl. Qed.

Section TupleOrder.
Context {K : Type} (DK : K -> Prop) (keq klt : K -> K -> bool).
Hypothesis KO : key_order DK keq klt.

Let D (a : K * string) : Prop := DK (fst a).
Let lt := tuple_ltb keq klt.

Lemma tuple_ltb_trans a b c :
  D a -> D b -> D c -> lt a b = true -> lt b c = true -> lt a c = true.
Proof.
  destruct a as [a i], b as [b j], c as [c k]; unfold D, lt, tuple_ltb; simpl.
  intros Da Db Dc.
  destruct (keq a b) eqn:Hab, (keq b c) eqn:Hbc; intros H1 H2.
  - rewrite (keq_trans KO a b c) by assumption.
    eapply string_ltb_trans; eassumption.
  - destruct (keq a c) eqn:Hac.
    + rewrite (keq_sym KO a b) in Hab by assumption.
      rewrite (keq_trans KO b a c) in Hbc by assumption. discriminate.
    + rewrite (klt_eq_l KO a b c) by assumption. exact H2.
  - destruct (keq a c) eqn:Hac.
    + rewrite (keq_sym KO b c) in Hbc by assumption.
      rewrite (keq_trans KO a c b) in Hab by assumption. discriminate.
    + rewrite <- (klt_eq_r KO a b c) by assumption. exact H1.
  - destruct (keq a c) eqn:Hac.
    + exfalso. rewrite (klt_eq_l KO a c b) in H1 by assumption.
      exact (klt_asym KO b c Db Dc H2 H1).
    + exact (klt_trans KO a b c Da Db Dc H1 H2).
Qed.

Lemma tuple_ltb_asym a b :
  D a -> D b -> lt a b = true -> lt b a = true -> False.
Proof.
  destruct a as [a i], b as [b j]; unfold D, lt, tuple_ltb; simpl.
  intros Da Db. rewrite (keq_sym KO b a) by assumption.
  destruct (keq a b).
  - apply string_ltb_asym.
  - apply (klt_asym KO); assumption.
Qed.

Lemma tuple_ltb_total a b :
  D a -> D b -> snd a <> snd b -> lt a b = true \/ lt b a = true.
Proof.
  destruct a as [a i], b as [b j]; unfold D, lt, tuple_ltb; simpl.
  intros Da Db Hij. rewrite (keq_sym KO b a) by assumption.
  destruct (keq a b) eqn:Hab.
  - now apply string_ltb_total.
  - now apply (klt_total KO).
Qed.

End TupleOrder.

Lemma string_key_order : key_order (fun _ => True) String.eqb String.ltb.
Proof.
  split.
  - intros a b _ _. apply String.eqb_sym.
  - intros a b c _ _ _ H1 H2. apply String.eqb_eq in H1, H2. subst.
    apply String.eqb_refl.
  - intros a b c _ _ _ H. apply String.eqb_eq in H. now subst.
  - intros a b c _ _ _ H. apply String.eqb_eq in H. now subst.
  - intros a b c _ _ _. apply string_ltb_trans.
  - intros a b _ _. apply string_ltb_asym.
  - intros a b _ _ H. apply String.eqb_neq in H. now apply string_ltb_total.
Qed.

Lemma Qle_bool_false x y : Qle_bool x y = false -> ~ (x <= y)%Q.
Proof. intros H Hle. apply Qle_bool_iff in Hle. congruence. Qed.

Ltac float_cases :=
  repeat match goal with
         | H : negb _ = true |- _ => apply Bool.negb_true_iff in H
         | H : negb _ = false |- _ => apply Bool.negb_false_iff in H
         end;
  repeat match goal with
         | |- context [Qle_bool ?x ?y] => destruct (Qle_bool x y) eqn:?
         | |- context [Qeq_bool ?x ?y] => destruct (Qeq_bool x y) eqn:?
         end;
  simpl in *; try discriminate; try reflexivity; auto;
  repeat match goal with
         | H : Qle_bool _ _ = true |- _ => apply Qle_bool_iff in H
         | H : Qle_bool _ _ = false |- _ => apply Qle_bool_false in H
         | H : Qeq_bool _ _ = true |- _ => apply Qeq_bool_iff in H
         | H : Qeq_bool _ _ = false |- _ => apply Qeq_bool_neq in H
         end;
  try (exfalso; lra).

Lemma float_key_order :
  key_order (fun f => is_nan f = false) float_eqb float_ltb.
Proof.
  split.
  - intros [x| | |] [y| | |] Ha Hb; simpl in *; try discriminate; float_cases.
  - intros [x| | |] [y| | |] [z| | |] Ha Hb Hc; simpl in *; try discriminate;
      intros; float_cases.
  - intros [x| | |] [y| | |] [z| | |] Ha Hb Hc; simpl in *; try discriminate;
      intros; float_cases.
  - intros [x| | |] [y| | |] [z| | |] Ha Hb Hc; simpl in *; try discriminate;
      intros; float_cases.
  - intros [x| | |] [y| | |] [z| | |] Ha Hb Hc; simpl in *; try discriminate;
      intros; float_cases.
  - intros [x| | |] [y| | |] Ha Hb; simpl in *; try discriminate;
      intros; float_cases.
  - intros [x| | |] [y| | |] Ha Hb; simpl in *; try discriminate;
      intros; float_cases.
Qed.

(** ** Moving and tagging rows *)

Lemma find_row_Some i rs r : find_row i rs = Some r -> In r rs /\ iid r = i.
Proof.
  unfold find_row; intros H. apply find_some in H. destruct H as [Hin He].
  apply String.eqb_eq in He. auto.
Qed.

Lemma find_row_notin i rs : ~ In i (map iid rs) -> find_row i rs = None.
Proof.
  induction rs as [|r rs IH]; simpl; intros H; [reflexivity|].
  destruct (String.eqb_spec (iid r) i) as [E|E]; [tauto|]. apply IH; tauto.
Qed.

Lemma find_row_middle l1 r l2 :
  ~ In (iid r) (map iid l1) -> find_row (iid r) (l1 ++ r :: l2) = Some r.
Proof.
  induction l1 as [|x l1 IH]; simpl; intros H.
  - now rewrite String.eqb_refl.
  - destruct (String.eqb_spec (iid x) (iid r)) as [E|E]; [tauto|]. apply IH; tauto.
Qed.

Lemma find_row_skip j l1 r l2 :
  j <> iid r -> find_row j (l1 ++ r :: l2) = find_row j (l1 ++ l2).
Proof.
  intros Hj. induction l1 as [|x l1 IH]; simpl.
  - destruct (String.eqb_spec (iid r) j); congruence.
  - now rewrite IH.
Qed.

Lemma find_row_NoDup rs r :
  NoDup (map iid rs) -> In r rs -> find_row (iid r) rs = Some r.
Proof.
  intros Hnd Hin. apply in_split in Hin. destruct Hin as (l1 & l2 & ->).
  apply find_row_middle. rewrite map_app in Hnd; simpl in Hnd.
  apply NoDup_remove_2 in Hnd. intros H; apply Hnd, in_or_app; now left.
Qed.

Lemma find_row_In i rs : In i (map iid rs) -> exists r, find_row i rs = Some r.
Proof.
  induction rs as [|r rs IH]; simpl; [tauto|].
  destruct (String.eqb_spec (iid r) i) as [E|E]; [eauto|].
  intros [H|H]; [contradiction|auto].
Qed.

Lemma detach_notin i rs : ~ In i (map iid rs) -> detach i rs = rs.
Proof.
  induction rs as [|r rs IH]; simpl; intros H; [reflexivity|].
  destruct (String.eqb_spec (iid r) i) as [E|E]; [tauto|].
  simpl. f_equal. apply IH; tauto.
Qed.

Lemma detach_middle l1 r l2 :
  ~ In (iid r) (map iid l1) -> ~ In (iid r) (map iid l2) ->
  detach (iid r) (l1 ++ r :: l2) = l1 ++ l2.
Proof.
  intros H1 H2. unfold detach. rewrite filter_app; simpl.
  rewrite String.eqb_refl; simpl.
  fold (detach (iid r) l1) (detach (iid r) l2).
  now rewrite !detach_notin.
Qed.

Lemma insert_at_app pre r l : insert_at (List.length pre) r (pre ++ l) = pre ++ r :: l.
Proof.
  unfold insert_at. induction pre as [|x pre IH]; simpl; [reflexivity|].
  now rewrite IH.
Qed.

Lemma retag_notin i tg rs :
  ~ In i (map iid rs) ->
  map (fun r => if String.eqb (iid r) i then retag tg r else r) rs = rs.
Proof.
  induction rs as [|r rs IH]; simpl; intros H; [reflexivity|].
  destruct (String.eqb_spec (iid r) i) as [E|E]; [tauto|].
  f_equal. apply IH; tauto.
Qed.

Lemma retag_middle tg l1 r l2 :
  ~ In (iid r) (map iid l1) -> ~ In (iid r) (map iid l2) ->
  map (fun r0 => if String.eqb (iid r0) (iid r) then retag tg r0 else r0)
      (l1 ++ r :: l2) = l1 ++ retag tg r :: l2.
Proof.
  intros H1 H2. rewrite map_app; simpl. rewrite String.eqb_refl.
  now rewrite !retag_notin.
Qed.

Lemma restacked_skip l1 r l2 ids : forall odd,
  ~ In (iid r) ids ->
  restacked (l1 ++ r :: l2) ids odd = restacked (l1 ++ l2) ids odd.
Proof.
  induction ids as [|j ids IH]; intros odd H; simpl; [reflexivity|].
  simpl in H. rewrite find_row_skip by (intros E; apply H; left; now symmetry).
  rewrite IH by tauto. reflexivity.
Qed.

Lemma NoDup_middle_parts (l1 : list string) x l2 :
  NoDup (l1 ++ x :: l2) -> ~ In x l1 /\ ~ In x l2 /\ NoDup (l1 ++ l2).
Proof.
  intros H. pose proof (NoDup_remove_1 _ _ _ H) as H1.
  pose proof (NoDup_remove_2 _ _ _ H) as H2.
  repeat split; auto; intros Hin; apply H2, in_or_app; auto.
Qed.

(** The loop of [sort_cols], started at position [i] with the first [i]
    rows already in place. *)
Lemma restack_from ids : forall i odd tv pre post,
  children tv = pre ++ post -> List.length pre = i ->
  NoDup (map iid (pre ++ post)) -> ~ In "" (map iid (pre ++ post)) ->
  Permutation ids (map iid post) ->
  exists tv', restack ids i odd tv = Ok tv' /\
    children tv' = pre ++ restacked post ids odd /\
    columns tv' = columns tv /\ root_tags tv' = root_tags tv /\
    serial tv' = serial tv.
Proof.
  induction ids as [|id ids IH]; intros i odd tv pre post Hch Hlen Hnd Hne Hp.
  - apply Permutation_nil in Hp. apply map_eq_nil in Hp. subst post.
    exists tv. simpl. repeat split; auto.
  - assert (Hin : In id (map iid post))
      by (eapply Permutation_in; [exact Hp|now left]).
    apply in_map_iff in Hin. destruct Hin as (r & Hr & Hin).
    apply in_split in Hin. destruct Hin as (p1 & p2 & ->). subst id.
    assert (Hnd0 := Hnd).
    rewrite app_assoc, map_app in Hnd0; simpl in Hnd0.
    apply NoDup_middle_parts in Hnd0. destruct Hnd0 as (Hl & Hr & Hnd').
    rewrite map_app in Hl.
    assert (Hpre : ~ In (iid r) (map iid pre)) by (intros H; apply Hl, in_or_app; auto).
    assert (Hp1 : ~ In (iid r) (map iid p1)) by (intros H; apply Hl, in_or_app; auto).
    assert (Hnz : iid r <> "").
    { intros E. apply Hne. rewrite <- E. apply in_map, in_or_app. right.
      apply in_or_app. right. now left. }
    assert (Hids : ~ In (iid r) ids /\ Permutation ids (map iid (p1 ++ p2))).
    { rewrite map_app in Hp; simpl in Hp.
      pose proof (Permutation_cons_app_inv _ _ Hp) as Hp'.
      rewrite <- map_app in Hp'. split; [|exact Hp'].
      intros H. eapply Permutation_in in H; [|exact Hp'].
      rewrite map_app in H. apply in_app_or in H. tauto. }
    destruct Hids as (Hids & Hp').
    simpl. unfold tree_move. rewrite Hch, app_assoc, find_row_middle
      by (rewrite map_app; intros H; apply in_app_or in H; tauto).
    rewrite detach_middle
      by (try rewrite map_app; try (intros H; apply in_app_or in H); tauto).
    rewrite <- app_assoc, <- Hlen, insert_at_app. simpl.
    unfold tree_item; simpl.
    destruct (String.eqb_spec (iid r) "") as [E|_]; [contradiction|].
    rewrite find_row_middle by assumption.
    rewrite retag_middle
      by (try rewrite map_app; try (intros H; apply in_app_or in H); tauto).
    simpl.
    assert (Hmv : Permutation (map iid (pre ++ p1 ++ r :: p2))
                    (map iid ((pre ++ [retag (shade odd) r]) ++ p1 ++ p2))).
    { rewrite <- app_assoc. repeat (rewrite map_app; simpl).
      apply Permutation_app_head. symmetry. apply Permutation_middle. }
    destruct (IH (S (List.length pre)) (negb odd)
                 (set_children (pre ++ retag (shade odd) r :: p1 ++ p2)
                    (set_children (pre ++ r :: p1 ++ p2) tv))
                 (pre ++ [retag (shade odd) r]) (p1 ++ p2))
      as (tv' & E' & Hch' & Hc' & Hr' & Hs').
    + simpl. now rewrite <- app_assoc.
    + rewrite length_app; simpl. lia.
    + eapply Permutation_NoDup; [exact Hmv|exact Hnd].
    + intros H. apply Hne. eapply Permutation_in; [symmetry; exact Hmv|exact H].
    + exact Hp'.
    + exists tv'. rewrite Hlen in *. rewrite E'. repeat split; auto.
      rewrite Hch', <- app_assoc; simpl.
      rewrite find_row_middle by assumption.
      now rewrite restacked_skip by assumption.
Qed.

Lemma restacked_iid rs ids : forall odd,
  incl ids (map iid rs) -> map iid (restacked rs ids odd) = ids.
Proof.
  induction ids as [|id ids IH]; intros odd Hin; simpl; [reflexivity|].
  destruct (find_row_In id rs) as [r Hr]; [apply Hin; now left|].
  rewrite Hr; simpl. destruct (find_row_Some _ _ _ Hr) as [_ ->].
  f_equal. apply IH. intros x Hx; apply Hin; now right.
Qed.

Lemma restacked_content rs ids : forall odd,
  incl ids (map iid rs) ->
  map row_content (restacked rs ids odd) = map (content_of rs) ids.
Proof.
  induction ids as [|id ids IH]; intros odd Hin; simpl; [reflexivity|].
  destruct (find_row_In id rs) as [r Hr]; [apply Hin; now left|].
  unfold content_of at 1. rewrite Hr; simpl.
  f_equal. apply IH. intros x Hx; apply Hin; now right.
Qed.

Lemma restacked_tags rs ids : forall odd i r,
  incl ids (map iid rs) ->
  nth_error (restacked rs ids odd) i = Some r ->
  tags r = shade (if Nat.even i then odd else negb odd).
Proof.
  induction ids as [|id ids IH]; intros odd i r Hin H; simpl in H.
  - destruct i; discriminate.
  - destruct (find_row_In id rs) as [r0 Hr]; [apply Hin; now left|].
    rewrite Hr in H. destruct i as [|i]; simpl in H.
    + inversion H; reflexivity.
    + apply IH in H; [|intros x Hx; apply Hin; now right].
      rewrite H, Nat.even_succ, <- Nat.negb_even.
      destruct (Nat.even i), odd; reflexivity.
Qed.

Lemma restacked_shaded rs ids :
  incl ids (map iid rs) -> shaded (restacked rs ids true).
Proof.
  intros Hin i r H. apply restacked_tags in H; [|assumption].
  rewrite H. unfold shade_at. now destruct (Nat.even i).
Qed.

Lemma content_of_self rs :
  NoDup (map iid rs) -> map (content_of rs) (map iid rs) = map row_content rs.
Proof.
  intros Hnd. rewrite map_map. apply map_ext_in. intros r Hr.
  unfold content_of. now rewrite find_row_NoDup.
Qed.

(** ** [sort_cols] *)

Lemma tree_set_cell tv r col v : tree_set tv r col = Ok v -> v = cell tv col r.
Proof.
  unfold tree_set, cell.
  destruct (column_index col (map fst (columns tv))); intros H; now inversion H.
Qed.

Lemma tree_set_known tv r col :
  In col (map fst (columns tv)) -> tree_set tv r col = Ok (cell tv col r).
Proof.
  unfold tree_set, cell. intros Hin.
  assert (H : forall cs, In col cs -> exists k, column_index col cs = Some k).
  { induction cs as [|c cs IH]; simpl; [tauto|]. intros [->|Hc].
    - destruct (column_index col cs); [eauto|]. rewrite String.eqb_refl; eauto.
    - destruct (IH Hc) as [k ->]; eauto. }
  destruct (H _ Hin) as [k ->]. reflexivity.
Qed.

Lemma column_data_Ok col tv d :
  column_data col tv = Ok d ->
  d = map (fun r => (cell tv col r, iid r)) (children tv).
Proof.
  unfold column_data. generalize (children tv) as rs.
  intros rs; revert d; induction rs as [|r rs IH]; simpl; intros d H.
  - now inversion H.
  - bind_inv H. bind_inv H. inversion H; subst; clear H.
    bind_inv E. inversion E; subst; clear E.
    apply tree_set_cell in E1. subst. f_equal. now apply IH.
Qed.

Lemma column_data_known col tv :
  In col (map fst (columns tv)) ->
  column_data col tv = Ok (map (fun r => (cell tv col r, iid r)) (children tv)).
Proof.
  intros Hin. unfold column_data.
  induction (children tv) as [|r rs IH]; simpl; [reflexivity|].
  rewrite tree_set_known by assumption. simpl. rewrite IH. reflexivity.
Qed.

Section SortCols.
Variable float : string -> option pyfloat.

Lemma to_float_Ok d fd :
  comprehension (to_float float) d = Ok fd ->
  fd = map (float_key float) d /\ Forall (fun x => float (fst x) <> None) d.
Proof.
  revert fd; induction d as [|x d IH]; simpl; intros fd H.
  - inversion H; auto.
  - bind_inv H. bind_inv H. inversion H; subst; clear H.
    destruct (IH _ E0) as [-> Hall]. unfold to_float in E.
    destruct (float (fst x)) eqn:Hf; inversion E; subst.
    split; [|constructor; [congruence|assumption]].
    simpl. unfold float_key at 2. now rewrite Hf.
Qed.

Lemma to_float_total d :
  Forall (fun x => float (fst x) <> None) d ->
  comprehension (to_float float) d = Ok (map (float_key float) d).
Proof.
  induction 1 as [|x d Hx _ IH]; simpl; [reflexivity|].
  unfold to_float at 1, float_key at 1.
  destruct (float (fst x)); [|contradiction]. simpl. now rewrite IH.
Qed.

(** A failed conversion is the only way the sorted order is not found
    for a non-empty list. *)
Lemma to_float_raises d e :
  comprehension (to_float float) d = Raise e ->
  e = ValueError /\ exists x, In x d /\ float (fst x) = None.
Proof.
  intros H. apply comprehension_raises in H. destruct H as (x & Hin & Hx).
  unfold to_float in Hx. destruct (float (fst x)) eqn:Hf; inversion Hx.
  split; [reflexivity|eauto].
Qed.

Lemma snd_float_key d : map snd (map (float_key float) d) = map snd d.
Proof. rewrite map_map. apply map_ext. now intros [v i]. Qed.

Lemma sorted_handles_perm reverse d ids :
  sorted_handles float reverse d = Ok ids -> Permutation ids (map snd d).
Proof.
  unfold sorted_handles. destruct d as [|first d']; [discriminate|].
  destruct (looks_numeric (fst first)); intros H.
  - bind_inv H. inversion H; subst; clear H.
    apply to_float_Ok in E. destruct E as [-> _].
    rewrite <- snd_float_key. apply Permutation_map, list_sort_perm.
  - inversion H; subst. apply Permutation_map, list_sort_perm.
Qed.

(** What a completed sort did to the table. *)
Lemma sort_cols_Ok col t t' :
  tree_wf (tree t) -> sort_cols float col t = Ok t' ->
  exists ids,
    sorted_handles float (descending t)
      (map (fun r => (cell (tree t) col r, iid r)) (children (tree t))) = Ok ids /\
    Permutation ids (map iid (children (tree t))) /\
    children (tree t') = restacked (children (tree t)) ids true /\
    columns (tree t') = columns (tree t) /\
    root_tags (tree t') = root_tags (tree t) /\
    serial (tree t') = serial (tree t) /\
    cols t' = cols t /\ data t' = data t /\ last_focus t' = last_focus t /\
    descending t' = negb (descending t).
Proof.
  intros [Hnd Hne] H. unfold sort_cols in H.
  bind_inv H. rename x into d. bind_inv H. rename x into ids.
  bind_inv H. rename x into tv. inversion H; subst; clear H; simpl.
  apply column_data_Ok in E. subst d.
  assert (Hp : Permutation ids (map iid (children (tree t)))).
  { apply sorted_handles_perm in E0. rewrite map_map in E0. exact E0. }
  destruct (restack_from ids 0 true (tree t) [] (children (tree t)))
    as (tv' & E' & Hch & Hc & Hr & Hs); auto.
  rewrite E1 in E'. inversion E'; subst tv'.
  exists ids. repeat split; auto.
Qed.

Lemma sort_cols_total col t ids :
  tree_wf (tree t) ->
  In col (map fst (columns (tree t))) ->
  sorted_handles float (descending t)
    (map (fun r => (cell (tree t) col r, iid r)) (children (tree t))) = Ok ids ->
  exists t', sort_cols float col t = Ok t'.
Proof.
  intros [Hnd Hne] Hcol Hs. unfold sort_cols.
  rewrite column_data_known by assumption. simpl. rewrite Hs. simpl.
  destruct (restack_from ids 0 true (tree t) [] (children (tree t)))
    as (tv' & E' & _); auto.
  - apply sorted_handles_perm in Hs. rewrite map_map in Hs. exact Hs.
  - rewrite E'. simpl. eauto.
Qed.

(** A sort keeps the widget well formed. *)
Lemma sort_cols_wf col t t' :
  tree_wf (tree t) -> sort_cols float col t = Ok t' -> tree_wf (tree t').
Proof.
  intros Hwf H. destruct (sort_cols_Ok _ _ _ Hwf H) as (ids & _ & Hp & Hch & _).
  destruct Hwf as [Hnd Hne]. unfold tree_wf. rewrite Hch.
  rewrite restacked_iid
    by (intros x Hx; eapply Permutation_in; [exact Hp|exact Hx]).
  split.
  - eapply Permutation_NoDup; [symmetry; exact Hp|exact Hnd].
  - intros H0. apply Hne. eapply Permutation_in; [exact Hp|exact H0].
Qed.

End SortCols.

(** ** Claims about construction *)

Lemma column_index_absent c cs : ~ In c cs -> column_index c cs = None.
Proof.
  induction cs as [|c' cs IH]; simpl; intros H; [reflexivity|].
  rewrite IH by tauto. destruct (String.eqb_spec c' c); [tauto|reflexivity].
Qed.

Lemma column_index_NoDup cs : forall j c,
  NoDup cs -> nth_error cs j = Some c -> column_index c cs = Some j.
Proof.
  induction cs as [|c' cs IH]; intros j c Hnd Hj; [destruct j; discriminate|].
  inversion Hnd; subst. destruct j as [|j]; simpl in *.
  - inversion Hj; subst. rewrite column_index_absent by assumption.
    now rewrite String.eqb_refl.
  - now rewrite (IH j c).
Qed.

(** C8. Construction completes on every input whose rows fit the columns,
    and afterwards every column is at least as wide as its header text and
    as every cell shown in it: a cell wider than the column widens it, and
    the row loop of [insert_data] only ever widens a column. *)
Theorem column_widths_cover_content measure cs rows :
  Forall (fun item => List.length item <= List.length cs) rows ->
  exists t, init_table measure cs rows = Ok t /\
    (forall j c, nth_error cs j = Some c ->
       exists w, column_width c (columns (tree t)) = Ok w /\
         (measure c <= w)%Z /\
         (forall item v, In item rows -> nth_error item j = Some v ->
                         (measure v <= w)%Z)) /\
    (forall odd rows' tv tv',
       insert_rows measure cs odd rows' tv = Ok tv' -> widened tv tv').
Proof.
  intros Hfit. destruct (init_table_total measure cs rows Hfit) as [t H].
  exists t. split; [exact H|]. split.
  - unfold init_table, insert_data in H; simpl in H.
    bind_inv H. rename x into tv1. bind_inv H. rename x into tv2.
    inversion H; subst; clear H; simpl.
    destruct (register_columns_Ok measure cs (Treeview cs))
      as (tv1' & E1 & _ & _ & _ & _ & Hhead & _).
    { simpl. rewrite map_map; simpl. rewrite map_id. apply incl_refl. }
    rewrite E in E1; inversion E1; subst tv1'.
    destruct (insert_rows_Ok _ _ _ _ _ _ E0) as (_ & _ & _ & Hw & Hcells).
    intros j c Hj.
    destruct (Hw c (measure c)) as (w & Hcw & Hle);
      [apply Hhead; eapply nth_error_In; eassumption|].
    exists w. repeat split; auto.
    intros item v Hin Hv.
    destruct (Hcells item j v c Hin Hv Hj) as (w' & Hcw' & Hle').
    rewrite Hcw in Hcw'. inversion Hcw'; subst. exact Hle'.
  - intros odd rows' tv tv' H'.
    now destruct (insert_rows_Ok _ _ _ _ _ _ H') as (_ & _ & _ & Hw & _).
Qed.

Lemma column_widths_cover_content_witness :
  init_table measure8 ["id"] [["alpha"]; ["b"]] = Ok wide_cell_table /\
  measure8 "id" = 16%Z /\ measure8 "alpha" = 40%Z /\
  column_width "id" (columns (tree wide_cell_table)) = Ok 40%Z /\
  exists t, init_table measure8 ["id"] [["alpha"]; ["b"]] = Ok t /\
    (forall j c, nth_error ["id"] j = Some c ->
       exists w, column_width c (columns (tree t)) = Ok w /\
         (measure8 c <= w)%Z /\
         (forall item v, In item [["alpha"]; ["b"]] ->
                         nth_error item j = Some v -> (measure8 v <= w)%Z)) /\
    (forall odd rows' tv tv',
       insert_rows measure8 ["id"] odd rows' tv = Ok tv' -> widened tv tv').
Proof.
  do 4 (split; [reflexivity|]).
  apply (column_widths_cover_content measure8 ["id"] [["alpha"]; ["b"]]).
  repeat constructor.
Defined.

(** C9. A constructed table shows as many rows as it was given, in input
    order, each with its input values in column order. *)
Theorem construction_displays_input measure cs rows t :
  init_table measure cs rows = Ok t ->
  List.length (children (tree t)) = List.length rows /\
  map values (children (tree t)) = rows /\
  (NoDup cs ->
   forall i r item j c v,
     nth_error (children (tree t)) i = Some r -> nth_error rows i = Some item ->
     nth_error cs j = Some c -> nth_error item j = Some v ->
     tree_set (tree t) r c = Ok v).
Proof.
  intros H. destruct (init_table_Ok _ _ _ _ H) as (_ & _ & _ & _ & Hch & _ & Hn).
  assert (Hv : map values (children (tree t)) = rows)
    by (rewrite Hch; apply fresh_rows_values).
  repeat split.
  - rewrite <- Hv. now rewrite length_map.
  - exact Hv.
  - intros Hnd i r item j c v Hr Hitem Hc Hcell.
    assert (values r = item).
    { apply (map_nth_error values) in Hr. rewrite Hv in Hr. congruence. }
    subst item. unfold tree_set. rewrite Hn.
    rewrite (column_index_NoDup cs j c Hnd Hc).
    f_equal. now apply nth_error_nth.
Qed.

Lemma construction_displays_input_witness :
  init_table measure8 ["Name"; "Score"] [["Bob"; "5"]; ["Amy"; "12"]]
    = Ok scores_table /\
  map values (children (tree scores_table)) = [["Bob"; "5"]; ["Amy"; "12"]].
Proof.
  split; [reflexivity|].
  apply (construction_displays_input measure8 ["Name"; "Score"]
           [["Bob"; "5"]; ["Amy"; "12"]]).
  reflexivity.
Defined.

Lemma init_table_wf measure cs rows t :
  init_table measure cs rows = Ok t -> tree_wf (tree t).
Proof.
  intros H. destruct (init_table_Ok _ _ _ _ H) as (_ & _ & _ & _ & Hch & _).
  unfold tree_wf. rewrite Hch, fresh_rows_iid. split.
  - apply item_id_NoDup.
  - intros Hin. apply in_map_iff in Hin. destruct Hin as (n & Hn & _).
    exact (item_id_nonempty n Hn).
Qed.

(** ** Claims about the sort decision *)

(** The test of [sort_cols] accepts a leading ASCII digit, and also the
    empty string, which is a substring of any string. *)
Lemma looks_numeric_empty : looks_numeric "" = true.
Proof. reflexivity. Qed.

Lemma looks_numeric_cons c v :
  looks_numeric (String c v) =
  match digit_of c with Some _ => true | None => false end.
Proof.
  unfold looks_numeric. replace (substring 0 1 (String c v)) with (String c "")
    by (simpl; now destruct v).
  destruct c as [[] [] [] [] [] [] [] []]; reflexivity.
Qed.

Lemma sorted_handles_raises float reverse d e :
  sorted_handles float reverse d = Raise e ->
  (d = [] /\ e = IndexError) \/
  (e = ValueError /\ exists first d', d = first :: d' /\
     looks_numeric (fst first) = true /\
     exists x, In x d /\ float (fst x) = None).
Proof.
  unfold sorted_handles. destruct d as [|first d']; intros H.
  - inversion H; auto.
  - right. destruct (looks_numeric (fst first)) eqn:Hn; [|discriminate].
    destruct (comprehension (to_float float) (first :: d')) as [fd|e'] eqn:E;
      simpl in H; [discriminate|].
    inversion H; subst. apply to_float_raises in E. destruct E as [-> Hx].
    split; [reflexivity|]. exists first, d'. auto.
Qed.

Lemma sorted_handles_numeric_fail float reverse first d' :
  looks_numeric (fst first) = true ->
  (exists x, In x (first :: d') /\ float (fst x) = None) ->
  sorted_handles float reverse (first :: d') = Raise ValueError.
Proof.
  intros Hn (x & Hin & Hx). unfold sorted_handles. rewrite Hn.
  destruct (comprehension (to_float float) (first :: d')) as [fd|e] eqn:E.
  - exfalso. apply to_float_Ok in E. destruct E as [_ Hall].
    rewrite Forall_forall in Hall. exact (Hall x Hin Hx).
  - apply to_float_raises in E. destruct E as [-> _]. reflexivity.
Qed.

Lemma sorted_handles_total float reverse first d' :
  looks_numeric (fst first) = false \/
  Forall (fun x => float (fst x) <> None) (first :: d') ->
  exists ids, sorted_handles float reverse (first :: d') = Ok ids.
Proof.
  intros H. unfold sorted_handles.
  destruct (looks_numeric (fst first)); [|eauto].
  destruct H as [H|H]; [discriminate|].
  rewrite to_float_total by assumption. cbn [bind]. eauto.
Qed.

(** C1. On a table without rows [sort_cols] does not return: [data[0]]
    raises [IndexError] before the direction flag is touched, so the claim
    that the empty sort succeeds and toggles the flag fails on the code. *)
Theorem sort_of_empty_table_raises measure float cs col :
  exists t, init_table measure cs [] = Ok t /\
            children (tree t) = [] /\
            sort_cols float col t = Raise IndexError.
Proof.
  destruct (init_table_total measure cs []) as [t Ht]; [constructor|].
  exists t. destruct (init_table_Ok _ _ _ _ Ht) as (_ & _ & _ & _ & Hch & _).
  simpl in Hch. repeat split; auto.
  unfold sort_cols, column_data. rewrite Hch. reflexivity.
Qed.

(** C2. When the first displayed row shows the empty string in the clicked
    column, [sort_cols] takes the numeric branch and [float('')] raises
    [ValueError]: the empty sample is not compared as text. *)
Theorem empty_sample_sorts_numerically float col t r rs :
  float "" = None ->
  children (tree t) = r :: rs ->
  In col (map fst (columns (tree t))) ->
  cell (tree t) col r = "" ->
  numeric_sort col (tree t) = true /\
  sort_cols float col t = Raise ValueError.
Proof.
  intros Hf Hch Hcol Hcell. split.
  - unfold numeric_sort. now rewrite Hch, Hcell.
  - unfold sort_cols. rewrite column_data_known by assumption.
    rewrite Hch. simpl. rewrite Hcell. simpl.
    unfold to_float at 1. simpl. rewrite Hf. reflexivity.
Qed.

Lemma empty_sample_sorts_numerically_witness :
  init_table measure8 ["v"] [[""]; ["a"]] = Ok blank_first /\
  sort_cols dec_float "v" blank_first = Raise ValueError.
Proof.
  split; [reflexivity|].
  eapply (empty_sample_sorts_numerically dec_float "v" blank_first);
    reflexivity || (now left).
Defined.

(** Parse failures in terms of the test [sort_cols] itself runs: when the
    sample passes it and some row's value in the column does not convert,
    the sort raises [ValueError] and hands back no table; when the sample
    fails it or every value converts, no [ValueError] is raised, and on a
    table that has rows the sort completes. *)
Theorem parse_failure_is_fatal float col t :
  tree_wf (tree t) ->
  In col (map fst (columns (tree t))) ->
  (numeric_sort col (tree t) = true ->
   (exists r, In r (children (tree t)) /\ float (cell (tree t) col r) = None) ->
   sort_cols float col t = Raise ValueError) /\
  (numeric_sort col (tree t) = false \/
   Forall (fun r => float (cell (tree t) col r) <> None) (children (tree t)) ->
   sort_cols float col t <> Raise ValueError /\
   (children (tree t) <> [] -> exists t', sort_cols float col t = Ok t')).
Proof.
  intros Hwf Hcol.
  set (d := map (fun r => (cell (tree t) col r, iid r)) (children (tree t))).
  split.
  - intros Hnum (r & Hin & Hr). unfold sort_cols.
    rewrite column_data_known by assumption. fold d. cbn [bind].
    unfold numeric_sort in Hnum.
    destruct (children (tree t)) as [|r0 rs] eqn:Hch; [discriminate|].
    subst d. cbn [map].
    rewrite sorted_handles_numeric_fail; [reflexivity|exact Hnum|].
    exists (cell (tree t) col r, iid r). split; [|exact Hr].
    change (In ((fun r1 => (cell (tree t) col r1, iid r1)) r)
               (map (fun r1 => (cell (tree t) col r1, iid r1)) (r0 :: rs))).
    now apply in_map.
  - intros Hok.
    assert (Hs : children (tree t) <> [] ->
                 exists ids, sorted_handles float (descending t) d = Ok ids).
    { intros Hne. unfold numeric_sort in Hok. subst d.
      destruct (children (tree t)) as [|r0 rs] eqn:Hch; [congruence|].
      cbn [map]. apply sorted_handles_total.
      destruct Hok as [Hok|Hok]; [now left|right].
      change (Forall (fun x => float (fst x) <> None)
                (map (fun r1 => (cell (tree t) col r1, iid r1)) (r0 :: rs))).
      rewrite Forall_map. exact Hok. }
    split.
    + destruct (children (tree t)) as [|r0 rs] eqn:Hch.
      * unfold sort_cols, column_data. rewrite Hch. discriminate.
      * destruct Hs as [ids Hids]; [discriminate|].
        destruct (sort_cols_total float col t ids Hwf Hcol) as [t' ->];
          [rewrite Hch; exact Hids|discriminate].
    + intros Hne. destruct (Hs Hne) as [ids Hids].
      exact (sort_cols_total float col t ids Hwf Hcol Hids).
Qed.

Lemma parse_failure_is_fatal_witness :
  init_table measure8 ["v"] [["1"]; ["x"]] = Ok malformed_second /\
  sort_cols dec_float "v" malformed_second = Raise ValueError.
Proof.
  split; [reflexivity|].
  apply (parse_failure_is_fatal dec_float "v" malformed_second).
  - apply (init_table_wf measure8 ["v"] [["1"]; ["x"]]). reflexivity.
  - now left.
  - reflexivity.
  - exists (mkRow "I002" ["x"] ["evenrow"]).
    split; [right; left; reflexivity|reflexivity].
Defined.

Lemma looks_numeric_digit_prefix v : v <> "" -> looks_numeric v = digit_prefix v.
Proof.
  destruct v as [|c v]; [congruence|]. intros _.
  rewrite looks_numeric_cons. reflexivity.
Qed.

(** C5. Read with the digit-prefix check of the specification, the first
    half holds: a sample that starts with a digit and a value that does not
    convert give [ValueError] and no table; and the sort completes when
    every value converts, or when a non-empty sample does not start with a
    digit.  The converse fails where the code's test departs from the
    check: an empty sample does not start with a digit, yet the code takes
    the numeric branch and [float('')] raises [ValueError]. *)
Theorem digit_prefix_is_not_the_test float col t r0 rs :
  tree_wf (tree t) ->
  In col (map fst (columns (tree t))) ->
  children (tree t) = r0 :: rs ->
  (digit_prefix (cell (tree t) col r0) = true ->
   (exists r, In r (children (tree t)) /\ float (cell (tree t) col r) = None) ->
   sort_cols float col t = Raise ValueError) /\
  (Forall (fun r => float (cell (tree t) col r) <> None) (children (tree t)) ->
   exists t', sort_cols float col t = Ok t') /\
  (digit_prefix (cell (tree t) col r0) = false -> cell (tree t) col r0 <> "" ->
   exists t', sort_cols float col t = Ok t') /\
  (cell (tree t) col r0 = "" -> float "" = None ->
   digit_prefix (cell (tree t) col r0) = false /\
   sort_cols float col t = Raise ValueError).
Proof.
  intros Hwf Hcol Hch.
  destruct (parse_failure_is_fatal float col t Hwf Hcol) as [Hfail Hok].
  assert (Hnum : numeric_sort col (tree t) = looks_numeric (cell (tree t) col r0))
    by (unfold numeric_sort; now rewrite Hch).
  assert (Hne : children (tree t) <> []) by (rewrite Hch; discriminate).
  split; [|split; [|split]].
  - intros Hd Hbad. apply Hfail; [|exact Hbad].
    rewrite Hnum, looks_numeric_digit_prefix; [exact Hd|].
    intros E. rewrite E in Hd. discriminate.
  - intros Hall. apply (proj2 (Hok (or_intror Hall)) Hne).
  - intros Hd Hv. apply (fun H => proj2 (Hok (or_introl H)) Hne).
    rewrite Hnum, looks_numeric_digit_prefix by assumption. exact Hd.
  - intros He Hf. split; [now rewrite He|].
    apply Hfail.
    + rewrite Hnum, He. reflexivity.
    + exists r0. split; [rewrite Hch; now left|]. now rewrite He.
Qed.

Lemma digit_prefix_is_not_the_test_witness :
  init_table measure8 ["v"] [[""]; ["a"]] = Ok blank_first /\
  digit_prefix (cell (tree blank_first) "v" (mkRow "I001" [""] ["oddrow"])) = false /\
  sort_cols dec_float "v" blank_first = Raise ValueError.
Proof.
  split; [reflexivity|].
  apply (proj2 (proj2 (proj2
           (digit_prefix_is_not_the_test dec_float "v" blank_first
              (mkRow "I001" [""] ["oddrow"]) [mkRow "I002" ["a"] ["evenrow"]]
              (init_table_wf measure8 ["v"] [[""]; ["a"]] blank_first eq_refl)
              (or_introl eq_refl) eq_refl)))).
  - reflexivity.
  - reflexivity.
Defined.

(** ** Shade tags *)

Lemma shade_at_succ i : shade_at i <> shade_at (S i).
Proof.
  unfold shade_at. rewrite Nat.even_succ, <- Nat.negb_even.
  destruct (Nat.even i); discriminate.
Qed.

(** C4. After construction and after every completed sort the row at
    display position [i] carries exactly the tag [oddrow] when [i] is even
    and [evenrow] when [i] is odd, whatever tags the rows carried before the
    sort (a hover tag included); hence adjacent rows never share a shade. *)
Theorem shade_tags_alternate :
  (forall measure cs rows t,
      init_table measure cs rows = Ok t -> shaded (children (tree t))) /\
  (forall float col t t',
      tree_wf (tree t) -> sort_cols float col t = Ok t' ->
      shaded (children (tree t'))) /\
  (forall rs, shaded rs ->
      forall i r, nth_error rs i = Some r ->
        tags r = (if Nat.even i then ["oddrow"] else ["evenrow"]) /\
        forall r', nth_error rs (S i) = Some r' -> tags r <> tags r').
Proof.
  repeat split.
  - intros measure cs rows t H.
    destruct (init_table_Ok _ _ _ _ H) as (_ & _ & _ & _ & Hch & _).
    rewrite Hch. apply fresh_rows_shaded.
  - intros float col t t' Hwf H.
    destruct (sort_cols_Ok _ _ _ _ Hwf H) as (ids & _ & Hp & Hch & _).
    rewrite Hch. apply restacked_shaded.
    intros x Hx. eapply Permutation_in; [exact Hp|exact Hx].
  - rewrite (H i r H0). unfold shade_at, shade. now destruct (Nat.even i).
  - intros r' Hr'. rewrite (H i r H0), (H (S i) r' Hr'). apply shade_at_succ.
Qed.

Lemma shade_tags_alternate_witness :
  init_table measure8 ["Name"; "Score"] [["Bob"; "5"]; ["Amy"; "12"]]
    = Ok scores_table /\
  sort_cols dec_float "Score" scores_hover_bob = Ok scores_hover_sorted /\
  shaded (children (tree scores_table)) /\
  shaded (children (tree scores_hover_sorted)).
Proof.
  split; [reflexivity|]. split; [reflexivity|]. split.
  - apply (proj1 shade_tags_alternate measure8 ["Name"; "Score"]
             [["Bob"; "5"]; ["Amy"; "12"]]). reflexivity.
  - apply (proj1 (proj2 shade_tags_alternate) dec_float "Score" scores_hover_bob).
    + split; simpl.
      * repeat constructor; simpl; intuition discriminate.
      * intuition discriminate.
    + reflexivity.
Defined.

(** ** Direction of the sort *)

Lemma restacked_data {A} (g : row -> A) (key : A -> string) rs :
  (forall tg r, g (retag tg r) = g r) -> (forall r, key (g r) = iid r) ->
  NoDup (map iid rs) ->
  forall s odd, incl s (map g rs) -> map g (restacked rs (map key s) odd) = s.
Proof.
  intros Hg Hk Hnd. induction s as [|x s IH]; intros odd Hin; simpl; [reflexivity|].
  assert (Hx : In x (map g rs)) by (apply Hin; now left).
  apply in_map_iff in Hx. destruct Hx as (r0 & <- & Hr0).
  rewrite Hk, find_row_NoDup by assumption. simpl. rewrite Hg. f_equal.
  apply IH. intros y Hy; apply Hin; now right.
Qed.

Lemma tuple_ltb_descends {K} (DK : K -> Prop) keq klt (a b : K * string) :
  key_order DK keq klt -> DK (fst a) -> DK (fst b) ->
  tuple_ltb keq klt b a = true -> klt (fst a) (fst b) = false.
Proof.
  intros KO Da Db. unfold tuple_ltb.
  destruct (keq (fst b) (fst a)) eqn:He; intros H;
    destruct (klt (fst a) (fst b)) eqn:Hl; auto; exfalso.
  - rewrite <- (klt_eq_l KO (fst b) (fst a) (fst b)) in Hl by assumption.
    exact (klt_asym KO _ _ Db Db Hl Hl).
  - exact (klt_asym KO _ _ Da Db Hl H).
Qed.

Lemma StronglySorted_nth {A} (R : A -> A -> Prop) l :
  StronglySorted R l ->
  forall i j a b, i < j -> nth_error l i = Some a -> nth_error l j = Some b -> R a b.
Proof.
  induction 1 as [|x l Hs IH Hx]; intros i j a b Hij Ha Hb.
  - destruct i; discriminate.
  - destruct j as [|j]; [lia|]. simpl in Hb. destruct i as [|i]; simpl in Ha.
    + inversion Ha; subst. rewrite Forall_forall in Hx. apply Hx.
      eapply nth_error_In; eassumption.
    + apply (IH i j); auto. lia.
Qed.

Section Direction.
Variable float : string -> option pyfloat.

Let text_lt := tuple_ltb String.eqb String.ltb.
Let float_lt := tuple_ltb float_eqb float_ltb.

Lemma sort_cols_flag col t t' :
  sort_cols float col t = Ok t' ->
  descending t' = negb (descending t) /\ last_focus t' = last_focus t /\
  cols t' = cols t /\ data t' = data t.
Proof.
  unfold sort_cols. intros H. bind_inv H. bind_inv H. bind_inv H.
  inversion H; subst; simpl. auto.
Qed.

Lemma cell_retag tv col tg r : cell tv col (retag tg r) = cell tv col r.
Proof. reflexivity. Qed.

Lemma nan_free_pairs col tv :
  nan_free float col tv ->
  Forall (fun x => float (fst x) <> None) (map (text_pair tv col) (children tv)) ->
  Forall (fun a => is_nan (fst a) = false)
         (map (float_key float) (map (text_pair tv col) (children tv))).
Proof.
  unfold nan_free. rewrite !Forall_map, !Forall_forall. intros Hn Hp r Hr.
  specialize (Hn r Hr). specialize (Hp r Hr). unfold float_key, text_pair in *.
  simpl in *. destruct (float (cell tv col r)) as [[| | |]|]; simpl; congruence.
Qed.

(** The column data of the table a sort leaves behind is the list the
    sort produced. *)
Lemma sort_cols_data col t t' :
  tree_wf (tree t) -> sort_cols float col t = Ok t' ->
  let d := map (text_pair (tree t) col) (children (tree t)) in
  if numeric_sort col (tree t)
  then Forall (fun x => float (fst x) <> None) d /\
       map (float_pair float (tree t) col) (children (tree t'))
       = list_sort float_lt (descending t) (map (float_key float) d)
  else map (text_pair (tree t) col) (children (tree t'))
       = list_sort text_lt (descending t) d.
Proof.
  intros Hwf H d.
  destruct (sort_cols_Ok float col t t' Hwf H) as (ids & Hs & Hp & Hch & _).
  fold (text_pair (tree t) col) in Hs. fold d in Hs.
  destruct Hwf as [Hnd _]. rewrite Hch.
  unfold numeric_sort, sorted_handles in *. subst d.
  destruct (children (tree t)) as [|r0 rs] eqn:Hrs; [discriminate|].
  cbn [map] in Hs. cbn [fst text_pair] in Hs.
  destruct (looks_numeric (cell (tree t) col r0)).
  - bind_inv Hs. inversion Hs; subst ids; clear Hs.
    apply to_float_Ok in E. destruct E as [-> Hall]. split; [exact Hall|].
    apply (restacked_data (float_pair float (tree t) col) snd); auto.
    intros x Hx.
    eapply Permutation_in in Hx; [|apply list_sort_perm].
    rewrite map_map in Hx. exact Hx.
  - inversion Hs; subst ids; clear Hs.
    apply (restacked_data (text_pair (tree t) col) snd); auto.
    intros x Hx. eapply Permutation_in in Hx; [|apply list_sort_perm]. exact Hx.
Qed.

Lemma text_pairs_NoDup tv col rs :
  NoDup (map iid rs) -> NoDup (map snd (map (text_pair tv col) rs)).
Proof. intros H. rewrite map_map. exact H. Qed.

Lemma float_pairs_NoDup tv col rs :
  NoDup (map iid rs) ->
  NoDup (map snd (map (float_key float) (map (text_pair tv col) rs))).
Proof. intros H. rewrite snd_float_key, map_map. exact H. Qed.

End Direction.

Section KeyedSort.
Context {K : Type} (DK : K -> Prop) (keq klt : K -> K -> bool).
Hypothesis KO : key_order DK keq klt.

Let lt := tuple_ltb keq klt.

Lemma keyed_sort_sorted (reverse : bool) l :
  Forall (fun a => DK (fst a)) l -> NoDup (map snd l) ->
  StronglySorted (fun a b => if reverse return Prop
                             then lt b a = true else lt a b = true)
                 (list_sort lt reverse l).
Proof.
  apply (list_sort_sorted lt (fun a => DK (fst a)) snd).
  - apply (tuple_ltb_trans DK keq klt KO).
  - apply (tuple_ltb_total DK keq klt KO).
Qed.

Lemma keyed_sort_mirror reverse l l' :
  Forall (fun a => DK (fst a)) l -> NoDup (map snd l) -> Permutation l l' ->
  list_sort lt (negb reverse) l' = rev (list_sort lt reverse l).
Proof.
  apply (list_sort_mirror lt (fun a => DK (fst a)) snd).
  - apply (tuple_ltb_trans DK keq klt KO).
  - apply (tuple_ltb_asym DK keq klt KO).
  - apply (tuple_ltb_total DK keq klt KO).
Qed.

(** In a list sorted with the flag set, no element has a smaller key than
    one that comes after it. *)
Lemma keyed_sort_descends l i j a b :
  Forall (fun a => DK (fst a)) l -> NoDup (map snd l) -> i < j ->
  nth_error (list_sort lt true l) i = Some a ->
  nth_error (list_sort lt true l) j = Some b ->
  klt (fst a) (fst b) = false.
Proof.
  intros HD Hnd Hij Ha Hb.
  pose proof (keyed_sort_sorted true l HD Hnd) as Hs.
  pose proof (StronglySorted_nth _ _ Hs i j a b Hij Ha Hb) as Hlt.
  assert (HD' : Forall (fun a => DK (fst a)) (list_sort lt true l))
    by (eapply Permutation_Forall; [symmetry; apply list_sort_perm|exact HD]).
  rewrite Forall_forall in HD'.
  apply (tuple_ltb_descends DK keq klt a b KO); auto;
    apply HD'; eapply nth_error_In; eassumption.
Qed.

End KeyedSort.

Section Mirror.
Variable float : string -> option pyfloat.

Let text_lt := tuple_ltb String.eqb String.ltb.
Let float_lt := tuple_ltb float_eqb float_ltb.

Lemma sorted_handles_Ok reverse d ids :
  sorted_handles float reverse d = Ok ids ->
  exists first d', d = first :: d' /\
    if looks_numeric (fst first)
    then Forall (fun x => float (fst x) <> None) d /\
         ids = map snd (list_sort float_lt reverse (map (float_key float) d))
    else ids = map snd (list_sort text_lt reverse d).
Proof.
  unfold sorted_handles. destruct d as [|first d']; [discriminate|].
  intros H. exists first, d'. split; [reflexivity|].
  destruct (looks_numeric (fst first)).
  - bind_inv H. inversion H; subst. apply to_float_Ok in E.
    destruct E as [-> Hall]. auto.
  - now inversion H.
Qed.

Lemma numeric_sort_pairs col tv first d' :
  map (text_pair tv col) (children tv) = first :: d' ->
  numeric_sort col tv = looks_numeric (fst first).
Proof.
  unfold numeric_sort. destruct (children tv) as [|r rs]; [discriminate|].
  simpl. intros H. now inversion H.
Qed.

Lemma cell_columns tv tv' col r :
  columns tv' = columns tv -> cell tv' col r = cell tv col r.
Proof. unfold cell. now intros ->. Qed.

Lemma text_pair_columns tv tv' col rs :
  columns tv' = columns tv ->
  map (text_pair tv' col) rs = map (text_pair tv col) rs.
Proof.
  intros H. apply map_ext. intros r. unfold text_pair.
  now rewrite (cell_columns tv tv' col r H).
Qed.

(** The first sort after construction, and any sort taken with the flag
    set, leaves the rows in descending order of the column. *)
Lemma sort_descends col t t' :
  tree_wf (tree t) -> descending t = true ->
  (numeric_sort col (tree t) = true -> nan_free float col (tree t)) ->
  sort_cols float col t = Ok t' ->
  displayed_descending float (numeric_sort col (tree t)) (tree t) col
                       (children (tree t')).
Proof.
  intros Hwf Hdesc Hnan H.
  pose proof (sort_cols_data float col t t' Hwf H) as Hd. cbv zeta in Hd.
  destruct Hwf as [Hnd _]. rewrite Hdesc in Hd.
  intros i j r1 r2 Hij H1 H2. unfold row_ltb.
  destruct (numeric_sort col (tree t)).
  - destruct Hd as [Hall Hd].
    apply (map_nth_error (float_pair float (tree t) col)) in H1, H2.
    rewrite Hd in H1, H2.
    eapply (keyed_sort_descends _ _ _ float_key_order); try eassumption.
    + apply nan_free_pairs; auto.
    + now apply float_pairs_NoDup.
  - apply (map_nth_error (text_pair (tree t) col)) in H1, H2.
    rewrite Hd in H1, H2.
    change (String.ltb (fst (text_pair (tree t) col r1))
                       (fst (text_pair (tree t) col r2)) = false).
    eapply (keyed_sort_descends _ _ _ string_key_order); try eassumption.
    + apply Forall_forall. auto.
    + now apply text_pairs_NoDup.
Qed.

(** Two completed sorts of one column that take the same decision leave
    mirror-image row orders. *)
Lemma sorts_mirror col t t1 t2 :
  tree_wf (tree t) ->
  sort_cols float col t = Ok t1 -> sort_cols float col t1 = Ok t2 ->
  numeric_sort col (tree t1) = numeric_sort col (tree t) ->
  (numeric_sort col (tree t) = true -> nan_free float col (tree t)) ->
  map row_content (children (tree t2)) = rev (map row_content (children (tree t1))).
Proof.
  intros Hwf H1 H2 Hmode Hnan.
  pose proof (sort_cols_wf float col t t1 Hwf H1) as Hwf1.
  pose proof (sort_cols_data float col t t1 Hwf H1) as Hd. cbv zeta in Hd.
  destruct (sort_cols_Ok float col t t1 Hwf H1)
    as (ids1 & Hs1 & Hp1 & Hch1 & Hc1 & _ & _ & _ & _ & _ & Hflag).
  destruct (sort_cols_Ok float col t1 t2 Hwf1 H2)
    as (ids2 & Hs2 & Hp2 & Hch2 & _).
  fold (text_pair (tree t) col) in Hs1. fold (text_pair (tree t1) col) in Hs2.
  rewrite (text_pair_columns (tree t) (tree t1) col _ Hc1) in Hs2.
  rewrite Hflag in Hs2.
  assert (Hids1 : map iid (children (tree t1)) = ids1).
  { rewrite Hch1. apply restacked_iid.
    intros x Hx. eapply Permutation_in; [exact Hp1|exact Hx]. }
  assert (Hrev : ids2 = rev ids1).
  { apply sorted_handles_Ok in Hs1, Hs2.
    destruct Hs1 as (x1 & d1 & Hd1 & Hs1). destruct Hs2 as (x2 & d2 & Hd2 & Hs2).
    rewrite (numeric_sort_pairs col (tree t) x1 d1 Hd1) in *.
    assert (Hm2 : numeric_sort col (tree t1) = looks_numeric (fst x2)).
    { apply (numeric_sort_pairs col (tree t1) x2 d2).
      now rewrite (text_pair_columns (tree t) (tree t1) col _ Hc1). }
    rewrite Hm2 in Hmode. rewrite Hmode in Hs2.
    destruct Hwf as [Hnd _].
    destruct (looks_numeric (fst x1)).
    - destruct Hs1 as [Hall1 ->]. destruct Hs2 as [_ ->]. destruct Hd as [_ Hd].
      rewrite <- map_rev. f_equal.
      rewrite map_map. fold (float_pair float (tree t) col). rewrite Hd.
      apply (keyed_sort_mirror _ _ _ float_key_order).
      + apply nan_free_pairs; auto.
      + now apply float_pairs_NoDup.
      + symmetry. apply list_sort_perm.
    - subst ids1 ids2. rewrite <- map_rev. f_equal. rewrite Hd.
      apply (keyed_sort_mirror _ _ _ string_key_order).
      + apply Forall_forall. auto.
      + now apply text_pairs_NoDup.
      + symmetry. apply list_sort_perm. }
  rewrite Hch2, restacked_content
    by (intros x Hx; eapply Permutation_in; [exact Hp2|exact Hx]).
  rewrite Hrev, map_rev. f_equal.
  rewrite <- Hids1. apply content_of_self. apply Hwf1.
Qed.

End Mirror.

(** C3, as it holds on the code.  The direction flag starts as descending
    and every completed sort flips it, whatever the column.  Provided that,
    when a sort is numeric, no value of the column reads as not-a-number: a
    completed sort taken with the flag set (the first one in particular)
    leaves the rows in descending order of the column; and two consecutive
    completed sorts of the same column that take the same numeric-or-text
    decision leave exactly mirrored row orders.  Row handles break ties, so
    the values need not be distinct. *)
Theorem sort_direction_alternates :
  (forall measure cs rows t,
      init_table measure cs rows = Ok t -> descending t = true) /\
  (forall float col t t',
      sort_cols float col t = Ok t' -> descending t' = negb (descending t)) /\
  (forall float col t t',
      tree_wf (tree t) -> descending t = true ->
      (numeric_sort col (tree t) = true -> nan_free float col (tree t)) ->
      sort_cols float col t = Ok t' ->
      displayed_descending float (numeric_sort col (tree t)) (tree t) col
                           (children (tree t'))) /\
  (forall float col t t1 t2,
      tree_wf (tree t) ->
      sort_cols float col t = Ok t1 -> sort_cols float col t1 = Ok t2 ->
      numeric_sort col (tree t1) = numeric_sort col (tree t) ->
      (numeric_sort col (tree t) = true -> nan_free float col (tree t)) ->
      map row_content (children (tree t2))
      = rev (map row_content (children (tree t1)))).
Proof.
  repeat split.
  - intros measure cs rows t H.
    now destruct (init_table_Ok _ _ _ _ H) as (_ & _ & Hd & _).
  - intros float col t t' H. now destruct (sort_cols_flag _ _ _ _ H).
  - intros float col t t'. apply sort_descends.
  - intros float col t t1 t2. apply sorts_mirror.
Qed.

Lemma sort_direction_alternates_witness :
  init_table measure8 ["Name"; "Score"] [["Bob"; "5"]; ["Amy"; "12"]]
    = Ok scores_table /\
  sort_cols dec_float "Score" scores_table = Ok scores_sorted /\
  sort_cols dec_float "Score" scores_sorted = Ok scores_table /\
  map row_content (children (tree scores_table))
  = rev (map row_content (children (tree scores_sorted))).
Proof.
  do 3 (split; [reflexivity|]).
  apply (proj2 (proj2 (proj2 sort_direction_alternates)) dec_float "Score"
           scores_table scores_sorted scores_table).
  - apply (init_table_wf measure8 ["Name"; "Score"]
             [["Bob"; "5"]; ["Amy"; "12"]]). reflexivity.
  - reflexivity.
  - reflexivity.
  - reflexivity.
  - intros _. unfold nan_free. simpl. repeat constructor; discriminate.
Defined.

(** C3 as it was stated fails: the values ["-5"], ["10"], ["9"] are pairwise
    distinct; the first sort samples ["-5"] and compares texts, the second
    samples ["9"] and compares numbers, and the second order is not the
    mirror image of the first. *)
Lemma consecutive_sorts_not_mirrored :
  init_table measure8 ["v"] [["-5"]; ["10"]; ["9"]] = Ok mixed_table /\
  NoDup (map (cell (tree mixed_table) "v") (children (tree mixed_table))) /\
  sort_cols dec_float "v" mixed_table = Ok mixed_sorted /\
  sort_cols dec_float "v" mixed_sorted = Ok mixed_resorted /\
  map values (children (tree mixed_sorted)) = [["9"]; ["10"]; ["-5"]] /\
  map values (children (tree mixed_resorted)) = [["-5"]; ["9"]; ["10"]] /\
  map values (children (tree mixed_resorted))
  <> rev (map values (children (tree mixed_sorted))).
Proof.
  split; [reflexivity|]. split.
  - simpl. repeat constructor; simpl; intuition discriminate.
  - do 4 (split; [reflexivity|]). discriminate.
Qed.

(** ** Hover *)

Lemma identify_by_height_sound : hit_test_sound identify_by_height.
Proof.
  intros tv y. unfold identify_by_height.
  destruct (y <? 0)%Z; [now left|].
  destruct (nth_error (children tv) (Z.to_nat (y / 20))) as [r|] eqn:E; [|now left].
  right. apply in_map. eapply nth_error_In; eassumption.
Qed.

Lemma differs_true i f : differs i f = true <-> f <> Some i.
Proof.
  unfold differs. destruct f as [j|]; [|split; [discriminate|reflexivity]].
  destruct (String.eqb_spec i j) as [->|Hne]; simpl; split;
    congruence || (intros; congruence).
Qed.

Lemma differs_false i f : differs i f = false <-> f = Some i.
Proof.
  unfold differs. destruct f as [j|]; [|split; discriminate].
  destruct (String.eqb_spec i j) as [->|Hne]; simpl; split; congruence.
Qed.

Lemma set_children_same tv : set_children (children tv) tv = tv.
Proof. now destruct tv. Qed.

Lemma with_tags_iid i tg rs : map iid (with_tags i tg rs) = map iid rs.
Proof.
  unfold with_tags. rewrite map_map. apply map_ext. intros r.
  now destruct (String.eqb (iid r) i).
Qed.

Lemma with_tags_In i tg rs r' :
  In r' (with_tags i tg rs) ->
  (iid r' = i /\ tags r' = tg) \/ (iid r' <> i /\ In r' rs).
Proof.
  unfold with_tags. rewrite in_map_iff. intros (r & <- & Hr).
  destruct (String.eqb_spec (iid r) i) as [E|E]; [left|right]; auto.
Qed.

Lemma find_row_with_tags_same i tg rs :
  find_row i (with_tags i tg rs) = option_map (retag tg) (find_row i rs).
Proof.
  induction rs as [|r rs IH]; simpl; [reflexivity|].
  destruct (String.eqb_spec (iid r) i) as [E|E]; simpl.
  - now rewrite E, String.eqb_refl.
  - destruct (String.eqb_spec (iid r) i); [contradiction|exact IH].
Qed.

Lemma find_row_with_tags_other i j tg rs :
  j <> i -> find_row j (with_tags i tg rs) = find_row j rs.
Proof.
  intros Hne. induction rs as [|r rs IH]; simpl; [reflexivity|].
  destruct (String.eqb_spec (iid r) i) as [E|E]; simpl.
  - destruct (String.eqb_spec (iid r) j); [congruence|exact IH].
  - now rewrite IH.
Qed.

Lemma tree_item_row i tg tv :
  i <> "" -> In i (map iid (children tv)) ->
  tree_item i tg tv = Ok (set_children (with_tags i tg (children tv)) tv).
Proof.
  intros Hne Hin. unfold tree_item.
  destruct (String.eqb_spec i ""); [contradiction|].
  destruct (find_row_In i (children tv) Hin) as [r ->]. reflexivity.
Qed.

Lemma tree_item_tags_row i tv r :
  i <> "" -> find_row i (children tv) = Some r -> tree_item_tags i tv = Ok (tags r).
Proof.
  intros Hne Hr. unfold tree_item_tags.
  destruct (String.eqb_spec i ""); [contradiction|]. now rewrite Hr.
Qed.

Lemma NoDup_map_inj {A B} (f : A -> B) l a b :
  NoDup (map f l) -> In a l -> In b l -> f a = f b -> a = b.
Proof.
  induction l as [|x l IH]; simpl; intros Hnd Ha Hb Hf; [contradiction|].
  inversion Hnd as [|? ? Hx Hnd']; subst.
  destruct Ha as [->|Ha], Hb as [->|Hb]; auto.
  - exfalso. apply Hx. rewrite Hf. now apply in_map.
  - exfalso. apply Hx. rewrite <- Hf. now apply in_map.
Qed.

(** The restore step in a state that satisfies the invariant: afterwards no
    row is hovered, the row that was focused carries its saved tags and the
    other rows are untouched. *)
Lemma restore_focus_spec t :
  hover_inv t ->
  exists rs1,
    restore_focus (last_focus t) (tree t) = Ok (set_children rs1 (tree t)) /\
    map iid rs1 = map iid (children (tree t)) /\
    (forall r, In r rs1 -> ~ is_hovered r) /\
    (forall i, focus_iid (last_focus t) <> Some i ->
               find_row i rs1 = find_row i (children (tree t))) /\
    (forall j tg, focus_iid (last_focus t) = Some j -> j <> "" ->
                  focus_tags (last_focus t) = Some tg ->
                  exists r, find_row j rs1 = Some r /\ tags r = tg).
Proof.
  intros ((Hnd & Hne) & Hhov & Hfoc). unfold restore_focus.
  assert (Hplain : forall f, (forall r, In r (children (tree t)) -> f <> Some (iid r)) ->
                             focus_iid (last_focus t) = f ->
                             forall r, In r (children (tree t)) -> ~ is_hovered r).
  { intros f Hf Hfi r Hr Hh. apply (Hf r Hr). rewrite <- Hfi. now apply Hhov. }
  destruct (focus_iid (last_focus t)) as [j|] eqn:Hj.
  - destruct (String.eqb_spec j "") as [->|Hjn].
    + exists (children (tree t)). rewrite set_children_same.
      repeat split; auto.
      * apply (Hplain (Some "")); auto. intros r Hr E. inversion E as [E'].
        apply Hne. rewrite E'. now apply in_map.
      * intros j tg E Hn. inversion E; congruence.
    + destruct (Hfoc j eq_refl Hjn) as (Hin & tg & Htg & Hclean).
      rewrite Htg. rewrite tree_item_row by assumption.
      exists (with_tags j tg (children (tree t))).
      repeat split.
      * apply with_tags_iid.
      * intros r Hr Hh. apply with_tags_In in Hr.
        destruct Hr as [[_ Ht]|[Hi Hr]].
        -- unfold is_hovered in Hh. rewrite Ht in Hh. contradiction.
        -- apply Hi. specialize (Hhov r Hr Hh). congruence.
      * intros i Hi. apply find_row_with_tags_other. congruence.
      * intros j' tg' E _ E'. inversion E; subst j'. inversion E'; subst tg'.
        rewrite find_row_with_tags_same.
        destruct (find_row_In j (children (tree t)) Hin) as [r ->].
        exists (retag tg r). auto.
  - exists (children (tree t)). rewrite set_children_same.
    repeat split; auto.
    + apply (Hplain None); auto. discriminate.
    + discriminate.
Qed.

Lemma option_eq_dec_string (a b : option string) : {a = b} + {a <> b}.
Proof. decide equality. apply string_dec. Qed.

Lemma shade_not_hovered b : ~ In hovered_row (shade b).
Proof. destruct b; simpl; intuition discriminate. Qed.

Lemma shaded_not_hovered rs r : shaded rs -> In r rs -> ~ is_hovered r.
Proof.
  intros Hs Hr. apply In_nth_error in Hr. destruct Hr as [i Hi].
  unfold is_hovered. rewrite (Hs i r Hi). apply shade_not_hovered.
Qed.

Section Hover.
Variable measure : string -> Z.
Variable float : string -> option pyfloat.
Variable identify_row : treeview -> Z -> string.
Hypothesis identify_row_sound : hit_test_sound identify_row.

(** A pointer motion onto a target other than the recorded focus. *)
Lemma highlight_row_step t y :
  hover_inv t ->
  focus_iid (last_focus t) <> Some (identify_row (tree t) y) ->
  exists t' saved,
    highlight_row identify_row y t = Ok t' /\
    tree_item_tags (identify_row (tree t) y) (tree t) = Ok saved /\
    last_focus t' = mkFocus (Some (identify_row (tree t) y)) (Some saved) /\
    descending t' = descending t /\
    map iid (children (tree t')) = map iid (children (tree t)) /\
    (identify_row (tree t) y <> "" ->
     tree_item_tags (identify_row (tree t) y) (tree t') = Ok [hovered_row]) /\
    (forall j tg, focus_iid (last_focus t) = Some j -> j <> "" ->
                  focus_tags (last_focus t) = Some tg ->
                  tree_item_tags j (tree t') = Ok tg) /\
    (forall k, k <> identify_row (tree t) y -> k <> "" ->
               focus_iid (last_focus t) <> Some k ->
               tree_item_tags k (tree t') = tree_item_tags k (tree t)) /\
    hover_inv t'.
Proof.
  intros Hinv Hdiff. set (i := identify_row (tree t) y) in *.
  destruct (restore_focus_spec t Hinv)
    as (rs1 & Hres & Hiid1 & Hclean1 & Hoth1 & Hfoc1).
  destruct Hinv as ((Hnd & Hne) & Hhov & Hfoc).
  unfold highlight_row. fold i. rewrite (proj2 (differs_true _ _) Hdiff).
  rewrite Hres. cbn [bind].
  destruct (String.eqb_spec i "") as [Ei|Ei].
  - rewrite Ei.
    exists (mkTable (cols t) (data t) (descending t)
                    (mkFocus (Some "") (Some (root_tags (tree t))))
                    (mkTree (columns (tree t)) rs1 [hovered_row]
                            (serial (tree t)))),
           (root_tags (tree t)).
    split; [reflexivity|]. split; [reflexivity|]. split; [reflexivity|].
    split; [reflexivity|]. split; [exact Hiid1|].
    split; [intros E; now contradiction E|].
    split; [|split; [|split; [split|split]]]; simpl.
    + intros j tg Hj Hjn Htg. destruct (Hfoc1 j tg Hj Hjn Htg) as (r & Hr & <-).
      now apply tree_item_tags_row.
    + intros k _ Hk Hkf. unfold tree_item_tags.
      destruct (String.eqb_spec k ""); [contradiction|].
      simpl. now rewrite Hoth1.
    + now rewrite Hiid1.
    + now rewrite Hiid1.
    + intros r Hr Hh. exfalso. exact (Hclean1 r Hr Hh).
    + intros i0 E Hn. inversion E. congruence.
  - assert (Hin : In i (map iid (children (tree t)))).
    { destruct (identify_row_sound (tree t) y) as [E|Hin]; [contradiction|exact Hin]. }
    destruct (find_row_In i _ Hin) as [r0 Hr0].
    assert (Hr1 : find_row i rs1 = Some r0) by (rewrite Hoth1; assumption).
    assert (Hc0 : ~ is_hovered r0).
    { apply Hclean1. now apply (find_row_Some i rs1 r0). }
    rewrite (tree_item_tags_row i (set_children rs1 (tree t)) r0 Ei Hr1).
    cbn [bind].
    rewrite tree_item_row; [|exact Ei|simpl; now rewrite Hiid1].
    cbn [bind].
    assert (Hself : find_row i (with_tags i [hovered_row] rs1)
                    = Some (retag [hovered_row] r0))
      by (rewrite find_row_with_tags_same, Hr1; reflexivity).
    eexists; exists (tags r0).
    split; [reflexivity|].
    split; [now apply tree_item_tags_row|]. split; [reflexivity|].
    split; [reflexivity|]. split; [simpl; now rewrite with_tags_iid|].
    split; [|split; [|split; [|split; [split|split]]]]; simpl.
    + intros _. unfold tree_item_tags.
      destruct (String.eqb_spec i ""); [contradiction|].
      simpl. now rewrite Hself.
    + intros j tg Hj Hjn Htg. destruct (Hfoc1 j tg Hj Hjn Htg) as (r & Hr & <-).
      apply tree_item_tags_row; [exact Hjn|]. simpl.
      rewrite find_row_with_tags_other; [exact Hr|congruence].
    + intros k Hki Hk Hkf. unfold tree_item_tags.
      destruct (String.eqb_spec k ""); [contradiction|].
      simpl. rewrite find_row_with_tags_other by assumption. now rewrite Hoth1.
    + now rewrite with_tags_iid, Hiid1.
    + now rewrite with_tags_iid, Hiid1.
    + intros r Hr Hh. apply with_tags_In in Hr.
      destruct Hr as [[E _]|[_ Hr]]; [congruence|].
      exfalso. exact (Hclean1 r Hr Hh).
    + intros i0 E Hn. inversion E; subst i0. split.
      * now rewrite with_tags_iid, Hiid1.
      * exists (tags r0). split; [reflexivity|exact Hc0].
Qed.

Lemma highlight_row_same t y :
  focus_iid (last_focus t) = Some (identify_row (tree t) y) ->
  highlight_row identify_row y t = Ok t.
Proof.
  intros H. unfold highlight_row. now rewrite (proj2 (differs_false _ _) H).
Qed.

Lemma sort_cols_inv col t t' :
  hover_inv t -> sort_cols float col t = Ok t' -> hover_inv t'.
Proof.
  intros (Hwf & Hhov & Hfoc) H.
  destruct (sort_cols_Ok float col t t' Hwf H)
    as (ids & _ & Hp & Hch & _ & _ & _ & _ & _ & Hlf & _).
  assert (Hincl : incl ids (map iid (children (tree t))))
    by (intros x Hx; eapply Permutation_in; [exact Hp|exact Hx]).
  split; [exact (sort_cols_wf float col t t' Hwf H)|]. split.
  - intros r Hr Hh. exfalso. rewrite Hch in Hr.
    exact (shaded_not_hovered _ r (restacked_shaded _ _ Hincl) Hr Hh).
  - intros i Hi Hn. rewrite Hlf in *. destruct (Hfoc i Hi Hn) as [Hin Htg].
    split; [|exact Htg].
    rewrite Hch, restacked_iid by assumption.
    eapply Permutation_in; [symmetry; exact Hp|exact Hin].
Qed.

Lemma init_table_inv cs rows t :
  init_table measure cs rows = Ok t -> hover_inv t.
Proof.
  intros H. pose proof (init_table_wf _ _ _ _ H) as Hwf.
  destruct (init_table_Ok _ _ _ _ H) as (_ & _ & _ & Hlf & Hch & _).
  split; [exact Hwf|]. split.
  - intros r Hr Hh. exfalso. rewrite Hch in Hr.
    exact (shaded_not_hovered _ r (fresh_rows_shaded rows) Hr Hh).
  - intros i Hi. rewrite Hlf in Hi. discriminate.
Qed.

(** The invariant holds in every reachable state. *)
Lemma reachable_inv t :
  reachable measure float identify_row t -> hover_inv t.
Proof.
  induction 1 as [cs rows t H|t col t' _ IH H|t y t' _ IH H].
  - exact (init_table_inv cs rows t H).
  - exact (sort_cols_inv col t t' IH H).
  - destruct (option_eq_dec_string (focus_iid (last_focus t))
                                   (Some (identify_row (tree t) y))) as [E|E].
    + rewrite (highlight_row_same t y E) in H. inversion H; subst. exact IH.
    + destruct (highlight_row_step t y IH E) as (t'' & saved & Hh & Hrest).
      rewrite Hh in H. inversion H; subst. apply Hrest.
Qed.

End Hover.

Lemma hover_of_focused t j :
  hover_of t = FocusedOn j <-> focus_iid (last_focus t) = Some j /\ j <> "".
Proof.
  unfold hover_of. destruct (focus_iid (last_focus t)) as [i|].
  - destruct (String.eqb_spec i "") as [->|Hi]; split.
    + discriminate.
    + intros [E Hn]. inversion E; congruence.
    + intros E. inversion E; subst. auto.
    + intros [E _]. now inversion E.
  - split; [discriminate|]. intros [E _]. discriminate.
Qed.

Lemma scores_hover_bob_reachable :
  reachable measure8 dec_float identify_by_height scores_hover_bob.
Proof.
  apply (reach_motion measure8 dec_float identify_by_height scores_table 5%Z).
  - apply (reach_init measure8 dec_float identify_by_height
             ["Name"; "Score"] [["Bob"; "5"]; ["Amy"; "12"]]).
    reflexivity.
  - reflexivity.
Qed.

(** C6. In every reachable state at most one displayed row carries the
    hover tag.  A motion that stays on the focused row changes nothing.  A
    motion from the focused row to another row gives the old row back the
    tags saved for it, replaces the new row's tags by the single hover tag
    and saves the tags the new row had just before; so a row that becomes
    hovered and is then left gets back exactly the tags it had immediately
    before it became hovered. *)
Theorem hover_marks_one_row measure float identify_row t :
  hit_test_sound identify_row ->
  reachable measure float identify_row t ->
  (forall r1 r2, In r1 (children (tree t)) -> In r2 (children (tree t)) ->
                 is_hovered r1 -> is_hovered r2 -> r1 = r2) /\
  (forall y, focus_iid (last_focus t) = Some (identify_row (tree t) y) ->
             highlight_row identify_row y t = Ok t) /\
  (forall y j saved,
      hover_of t = FocusedOn j -> focus_tags (last_focus t) = Some saved ->
      identify_row (tree t) y <> j -> identify_row (tree t) y <> "" ->
      exists t' before,
        highlight_row identify_row y t = Ok t' /\
        tree_item_tags (identify_row (tree t) y) (tree t) = Ok before /\
        tree_item_tags j (tree t') = Ok saved /\
        tree_item_tags (identify_row (tree t) y) (tree t') = Ok [hovered_row] /\
        last_focus t' = mkFocus (Some (identify_row (tree t) y)) (Some before)) /\
  (forall y1 y2 t1,
      identify_row (tree t) y1 <> "" ->
      focus_iid (last_focus t) <> Some (identify_row (tree t) y1) ->
      highlight_row identify_row y1 t = Ok t1 ->
      identify_row (tree t1) y2 <> identify_row (tree t) y1 ->
      exists t2,
        highlight_row identify_row y2 t1 = Ok t2 /\
        tree_item_tags (identify_row (tree t) y1) (tree t2)
        = tree_item_tags (identify_row (tree t) y1) (tree t)).
Proof.
  intros Hsound Hreach.
  pose proof (reachable_inv measure float identify_row Hsound t Hreach) as Hinv.
  split; [|split; [|split]].
  - destruct Hinv as ((Hnd & _) & Hhov & _). intros r1 r2 H1 H2 Hh1 Hh2.
    apply (NoDup_map_inj iid (children (tree t))); auto.
    pose proof (Hhov r1 H1 Hh1). pose proof (Hhov r2 H2 Hh2). congruence.
  - intros y. apply highlight_row_same.
  - intros y j saved Hj Hsaved Hne Hnz. apply hover_of_focused in Hj.
    destruct Hj as [Hj Hjn].
    destruct (highlight_row_step identify_row Hsound t y Hinv)
      as (t' & before & Hh & Hb & Hlf & _ & _ & Hnew & Hold & _).
    { rewrite Hj. congruence. }
    exists t', before. repeat split; auto.
  - intros y1 y2 t1 Hnz Hdiff H1 Hne.
    destruct (highlight_row_step identify_row Hsound t y1 Hinv Hdiff)
      as (t1' & before & Hh & Hb & Hlf & _ & _ & _ & _ & _ & Hinv1).
    rewrite Hh in H1. inversion H1; subst t1'. clear H1.
    destruct (highlight_row_step identify_row Hsound t1 y2 Hinv1)
      as (t2 & _ & Hh2 & _ & _ & _ & _ & _ & Hold & _).
    { rewrite Hlf. simpl. congruence. }
    exists t2. split; [exact Hh2|]. rewrite Hb.
    apply Hold; [now rewrite Hlf|exact Hnz|now rewrite Hlf].
Qed.

Lemma hover_marks_one_row_witness :
  highlight_row identify_by_height 25 scores_hover_bob = Ok scores_hover_amy /\
  tree_item_tags "I001" (tree scores_hover_amy) = Ok ["oddrow"] /\
  tree_item_tags "I002" (tree scores_hover_amy) = Ok [hovered_row] /\
  forall r1 r2,
    In r1 (children (tree scores_hover_bob)) ->
    In r2 (children (tree scores_hover_bob)) ->
    is_hovered r1 -> is_hovered r2 -> r1 = r2.
Proof.
  do 3 (split; [reflexivity|]).
  apply (hover_marks_one_row measure8 dec_float identify_by_height scores_hover_bob).
  - exact identify_by_height_sound.
  - exact scores_hover_bob_reachable.
Defined.

(** C7. When a motion event resolves to no row while a row is focused, the
    handler returns normally: the focused row gets its saved tags back, the
    focus entry becomes the empty identifier, which the handler treats as
    no focus, and no displayed row is left hovered. *)
Theorem leaving_rows_clears_focus measure float identify_row t y j saved :
  hit_test_sound identify_row ->
  reachable measure float identify_row t ->
  hover_of t = FocusedOn j -> focus_tags (last_focus t) = Some saved ->
  identify_row (tree t) y = "" ->
  exists t',
    highlight_row identify_row y t = Ok t' /\
    tree_item_tags j (tree t') = Ok saved /\
    hover_of t' = Unfocused /\
    focus_iid (last_focus t') = Some "" /\
    (forall r, In r (children (tree t')) -> ~ is_hovered r).
Proof.
  intros Hsound Hreach Hj Hsaved Hmiss.
  pose proof (reachable_inv measure float identify_row Hsound t Hreach) as Hinv.
  apply hover_of_focused in Hj. destruct Hj as [Hj Hjn].
  destruct (highlight_row_step identify_row Hsound t y Hinv)
    as (t' & before & Hh & _ & Hlf & _ & _ & _ & Hold & _ & Hinv').
  { rewrite Hj, Hmiss. congruence. }
  rewrite Hmiss in Hlf.
  exists t'. split; [exact Hh|]. split; [exact (Hold j saved Hj Hjn Hsaved)|].
  split; [unfold hover_of; now rewrite Hlf|]. split; [now rewrite Hlf|].
  destruct Hinv' as ((_ & Hne) & Hhov & _). intros r Hr Hh'.
  specialize (Hhov r Hr Hh'). rewrite Hlf in Hhov. simpl in Hhov.
  apply Hne. inversion Hhov as [E]. rewrite E. now apply in_map.
Qed.

Lemma leaving_rows_clears_focus_witness :
  highlight_row identify_by_height 100 scores_hover_bob = Ok scores_hover_none /\
  exists t',
    highlight_row identify_by_height 100 scores_hover_bob = Ok t' /\
    tree_item_tags "I001" (tree t') = Ok ["oddrow"] /\
    hover_of t' = Unfocused /\
    focus_iid (last_focus t') = Some "" /\
    (forall r, In r (children (tree t')) -> ~ is_hovered r).
Proof.
  split; [reflexivity|].
  apply (leaving_rows_clears_focus measure8 dec_float identify_by_height
           scores_hover_bob 100%Z "I001" ["oddrow"]).
  - exact identify_by_height_sound.
  - exact scores_hover_bob_reachable.
  - reflexivity.
  - reflexivity.
  - reflexivity.
Defined.

(** C10. [sort_cols] never writes [last_focus].  When a sort runs while a
    row is focused, every row (the focused one included) gets its positional
    shade, the row stays recorded as focused with the tags saved before the
    sort, and the next motion that leaves it writes those saved tags back;
    in the worked example they differ from the shade the row's new position
    calls for. *)
Theorem sort_keeps_stale_focus :
  (forall float col t t',
      sort_cols float col t = Ok t' -> last_focus t' = last_focus t) /\
  (forall measure float identify_row t col t1 j saved,
      hit_test_sound identify_row ->
      reachable measure float identify_row t ->
      hover_of t = FocusedOn j -> focus_tags (last_focus t) = Some saved ->
      sort_cols float col t = Ok t1 ->
      hover_of t1 = FocusedOn j /\ focus_tags (last_focus t1) = Some saved /\
      shaded (children (tree t1)) /\
      forall y, identify_row (tree t1) y <> j ->
        exists t2, highlight_row identify_row y t1 = Ok t2 /\
                   tree_item_tags j (tree t2) = Ok saved) /\
  (reachable measure8 dec_float identify_by_height scores_hover_bob /\
   sort_cols dec_float "Score" scores_hover_bob = Ok scores_hover_sorted /\
   highlight_row identify_by_height 5 scores_hover_sorted = Ok scores_hover_stale /\
   nth_error (children (tree scores_hover_stale)) 1 = Some (bob ["oddrow"]) /\
   shade_at 1 = ["evenrow"]).
Proof.
  split; [|split].
  - intros float col t t' H. now destruct (sort_cols_flag _ _ _ _ H) as (_ & Hlf & _).
  - intros measure float identify_row t col t1 j saved Hsound Hreach Hj Hsaved Hsort.
    pose proof (reachable_inv measure float identify_row Hsound t Hreach) as Hinv.
    pose proof (sort_cols_inv float col t t1 Hinv Hsort) as Hinv1.
    destruct (sort_cols_flag _ _ _ _ Hsort) as (_ & Hlf & _).
    destruct (sort_cols_Ok float col t t1 (proj1 Hinv) Hsort)
      as (ids & _ & Hp & Hch & _).
    assert (Hj1 : hover_of t1 = FocusedOn j) by (unfold hover_of in *; now rewrite Hlf).
    split; [exact Hj1|]. split; [now rewrite Hlf|]. split.
    + rewrite Hch. apply restacked_shaded.
      intros x Hx. eapply Permutation_in; [exact Hp|exact Hx].
    + intros y Hne. apply hover_of_focused in Hj1. destruct Hj1 as [Hf1 Hjn].
      destruct (highlight_row_step identify_row Hsound t1 y Hinv1)
        as (t2 & _ & Hh & _ & _ & _ & _ & _ & Hold & _).
      { rewrite Hf1. congruence. }
      exists t2. split; [exact Hh|]. apply Hold; auto. now rewrite Hlf.
  - split; [exact scores_hover_bob_reachable|]. repeat split.
Qed.

Lemma sort_keeps_stale_focus_witness :
  sort_cols dec_float "Score" scores_hover_bob = Ok scores_hover_sorted /\
  hover_of scores_hover_sorted = FocusedOn "I001" /\
  focus_tags (last_focus scores_hover_sorted) = Some ["oddrow"] /\
  shaded (children (tree scores_hover_sorted)) /\
  forall y, identify_by_height (tree scores_hover_sorted) y <> "I001" ->
    exists t2, highlight_row identify_by_height y scores_hover_sorted = Ok t2 /\
               tree_item_tags "I001" (tree t2) = Ok ["oddrow"].
Proof.
  split; [reflexivity|].
  apply (proj1 (proj2 sort_keeps_stale_focus) measure8 dec_float
           identify_by_height scores_hover_bob "Score" scores_hover_sorted
           "I001" ["oddrow"]).
  - exact identify_by_height_sound.
  - exact scores_hover_bob_reachable.
  - reflexivity.
  - reflexivity.
  - reflexivity.
Defined.

(** * Further properties of the code *)

(** ** Construction: when it fails, and how wide the columns get *)

Section ConstructionOutcome.
Variable measure : string -> Z.

Lemma widen_cells_raises cs item : forall idx tv,
  incl cs (map fst (columns tv)) ->
  idx <= List.length cs -> List.length cs < idx + List.length item ->
  widen_cells measure cs idx item tv = Raise IndexError.
Proof.
  induction item as [|val item IH]; intros idx tv Hin Hle Hlt; simpl in *; [lia|].
  destruct (nth_error cs idx) as [c|] eqn:Hc; [|reflexivity].
  assert (Hidx : idx < List.length cs)
    by (apply nth_error_Some; congruence).
  destruct (column_width_known c (columns tv)) as [w Hw];
    [apply Hin; eapply nth_error_In; eassumption|].
  rewrite Hw; cbn [bind].
  destruct (w <? measure val)%Z.
  - destruct (tree_column c (measure val) tv) as [tv1|e] eqn:E1;
      [|unfold tree_column in E1; rewrite Hw in E1; discriminate].
    cbn [bind]. apply IH; [|lia|lia].
    destruct (tree_column_Ok _ _ _ _ E1) as (_ & _ & _ & Hn & _). now rewrite Hn.
  - cbn [bind]. apply IH; [assumption|lia|lia].
Qed.

Lemma insert_rows_raises cs rows : forall odd tv,
  incl cs (map fst (columns tv)) ->
  Exists (fun item => List.length cs < List.length item) rows ->
  insert_rows measure cs odd rows tv = Raise IndexError.
Proof.
  induction rows as [|item rows IH]; intros odd tv Hin Hex; [inversion Hex|].
  simpl.
  destruct (le_lt_dec (List.length item) (List.length cs)) as [Hshort|Hlong].
  - destruct (widen_cells_total measure cs item 0 (tree_insert item (shade odd) tv))
      as [tv1 E1]; [exact Hin|simpl; lia|].
    rewrite E1; cbn [bind]. apply IH.
    + destruct (widen_cells_Ok _ _ _ _ _ _ E1) as (_ & _ & _ & Hn & _).
      now rewrite Hn.
    + inversion Hex; subst; [lia|assumption].
  - rewrite widen_cells_raises; [reflexivity|exact Hin|lia|simpl; lia].
Qed.

(** X1. Construction completes exactly when no row holds more values than
    there are columns; a longer row makes [self.cols[idx]] raise
    [IndexError], and no other exception can escape. *)
Theorem construction_outcome cs rows :
  (Forall (fun item => List.length item <= List.length cs) rows /\
   exists t, init_table measure cs rows = Ok t) \/
  (Exists (fun item => List.length cs < List.length item) rows /\
   init_table measure cs rows = Raise IndexError).
Proof.
  destruct (Forall_Exists_dec (fun item : list string =>
                                 List.length item <= List.length cs)
              (fun item => le_dec (List.length item) (List.length cs)) rows)
    as [Hall|Hex].
  - left. split; [exact Hall|]. now apply init_table_total.
  - right.
    assert (Hlong : Exists (fun item => List.length cs < List.length item) rows).
    { eapply Exists_impl; [|exact Hex]. simpl. intros item H. lia. }
    split; [exact Hlong|].
    unfold init_table, insert_data; simpl.
    destruct (register_columns_Ok measure cs (Treeview cs))
      as (tv1 & E1 & _ & _ & _ & Hn1 & _).
    { simpl. rewrite map_map; simpl. rewrite map_id. apply incl_refl. }
    rewrite E1; cbn [bind].
    rewrite insert_rows_raises; [reflexivity| |exact Hlong].
    rewrite Hn1; simpl. rewrite map_map; simpl. rewrite map_id. apply incl_refl.
Qed.

Lemma widen_cells_keeps (Q : string -> Z -> Prop) cs item : forall idx tv tv',
  widen_cells measure cs idx item tv = Ok tv' ->
  (forall k v c, nth_error item k = Some v -> nth_error cs (idx + k) = Some c ->
                 Q c (measure v)) ->
  (forall c w, column_width c (columns tv) = Ok w -> Q c w) ->
  forall c w, column_width c (columns tv') = Ok w -> Q c w.
Proof.
  induction item as [|val item IH]; intros idx tv tv' H Hcells Hold; simpl in H.
  - inversion H; subst. exact Hold.
  - destruct (nth_error cs idx) as [c0|] eqn:Hc; [|discriminate].
    bind_inv H. rename x into w0. bind_inv H. rename x into tv1.
    apply (IH (S idx) tv1 tv' H).
    + intros k v c Hk Hcs. apply (Hcells (S k) v c Hk).
      now rewrite <- Nat.add_succ_comm.
    + intros c w Hw. destruct (w0 <? measure val)%Z.
      * destruct (tree_column_Ok _ _ _ _ E0) as (_ & _ & _ & _ & Hset & Hoth).
        destruct (string_dec c c0) as [->|Hne].
        -- rewrite Hset in Hw. inversion Hw; subst.
           apply (Hcells 0 val c0); [reflexivity|now rewrite Nat.add_0_r].
        -- rewrite Hoth in Hw by assumption. now apply Hold.
      * inversion E0; subst. now apply Hold.
Qed.

Lemma insert_rows_keeps (Q : string -> Z -> Prop) cs rows : forall odd tv tv',
  insert_rows measure cs odd rows tv = Ok tv' ->
  (forall item k v c, In item rows -> nth_error item k = Some v ->
                      nth_error cs k = Some c -> Q c (measure v)) ->
  (forall c w, column_width c (columns tv) = Ok w -> Q c w) ->
  forall c w, column_width c (columns tv') = Ok w -> Q c w.
Proof.
  induction rows as [|item rows IH]; intros odd tv tv' H Hcells Hold; simpl in H.
  - inversion H; subst. exact Hold.
  - bind_inv H. rename x into tv1.
    apply (IH (negb odd) tv1 tv' H).
    + intros item0 k v c Hin. apply Hcells. now right.
    + apply (widen_cells_keeps Q cs item 0 _ tv1 E).
      * intros k v c Hk Hcs. apply (Hcells item k v c); auto. now left.
      * exact Hold.
Qed.

(** X2. A column is never wider than its content needs: after construction
    its width is the rendered width of its header or of one of the cells
    the rows hold for that column. *)
Theorem column_widths_are_tight cs rows t c w :
  init_table measure cs rows = Ok t ->
  column_width c (columns (tree t)) = Ok w ->
  w = measure c \/
  exists item j v, In item rows /\ nth_error item j = Some v /\
                   nth_error cs j = Some c /\ w = measure v.
Proof.
  intros H Hw. unfold init_table, insert_data in H; simpl in H.
  bind_inv H. rename x into tv1. bind_inv H. rename x into tv2.
  inversion H; subst; clear H; simpl in Hw.
  destruct (register_columns_Ok measure cs (Treeview cs))
    as (tv1' & E1 & _ & _ & _ & Hn1 & Hhead & _).
  { simpl. rewrite map_map; simpl. rewrite map_id. apply incl_refl. }
  rewrite E in E1; inversion E1; subst tv1'.
  revert c w Hw.
  apply (insert_rows_keeps
           (fun c w => w = measure c \/
              exists item j v, In item rows /\ nth_error item j = Some v /\
                               nth_error cs j = Some c /\ w = measure v)
           cs rows true tv1 tv2 E0).
  - intros item k v c Hin Hk Hc. right. exists item, k, v. auto.
  - intros c w Hw. left.
    assert (Hc : In c cs).
    { apply column_width_In in Hw. rewrite Hn1 in Hw. simpl in Hw.
      rewrite map_map in Hw; simpl in Hw. now rewrite map_id in Hw. }
    rewrite (Hhead c Hc) in Hw. now inversion Hw.
Qed.

End ConstructionOutcome.

Lemma column_widths_are_tight_witness :
  init_table measure8 ["Name"; "Score"] [["Bob"; "5"]; ["Amy"; "12"]]
    = Ok scores_table /\
  column_width "Score" (columns (tree scores_table)) = Ok 40%Z /\
  (40%Z = measure8 "Score" \/
   exists item j v, In item [["Bob"; "5"]; ["Amy"; "12"]] /\
                    nth_error item j = Some v /\
                    nth_error ["Name"; "Score"] j = Some "Score" /\
                    40%Z = measure8 v).
Proof.
  split; [reflexivity|]. split; [reflexivity|].
  apply (column_widths_are_tight measure8 ["Name"; "Score"]
           [["Bob"; "5"]; ["Amy"; "12"]] scores_table "Score" 40%Z);
    reflexivity.
Defined.

(** ** What a completed sort does to the rows *)

Section KeyedOrder.
Context {K : Type} (DK : K -> Prop) (keq klt : K -> K -> bool).
Hypothesis KO : key_order DK keq klt.

Let lt := tuple_ltb keq klt.

(** In a list sorted without the flag, no element has a larger key than
    one that comes after it. *)
Lemma keyed_sort_ascends l i j a b :
  Forall (fun a => DK (fst a)) l -> NoDup (map snd l) -> i < j ->
  nth_error (list_sort lt false l) i = Some a ->
  nth_error (list_sort lt false l) j = Some b ->
  klt (fst b) (fst a) = false.
Proof.
  intros HD Hnd Hij Ha Hb.
  pose proof (keyed_sort_sorted DK keq klt KO false l HD Hnd) as Hs.
  pose proof (StronglySorted_nth _ _ Hs i j a b Hij Ha Hb) as Hlt.
  assert (HD' : Forall (fun a => DK (fst a)) (list_sort lt false l))
    by (eapply Permutation_Forall; [symmetry; apply list_sort_perm|exact HD]).
  rewrite Forall_forall in HD'.
  apply (tuple_ltb_descends DK keq klt b a KO); auto;
    apply HD'; eapply nth_error_In; eassumption.
Qed.

(** Elements with equal keys come out in the order of their handles,
    reversed when the flag is set. *)
Lemma keyed_sort_ties (reverse : bool) l i j a b :
  Forall (fun a => DK (fst a)) l -> NoDup (map snd l) -> i < j ->
  nth_error (list_sort lt reverse l) i = Some a ->
  nth_error (list_sort lt reverse l) j = Some b ->
  keq (fst a) (fst b) = true ->
  if reverse return Prop
  then String.ltb (snd b) (snd a) = true
  else String.ltb (snd a) (snd b) = true.
Proof.
  intros HD Hnd Hij Ha Hb Heq.
  pose proof (keyed_sort_sorted DK keq klt KO reverse l HD Hnd) as Hs.
  pose proof (StronglySorted_nth _ _ Hs i j a b Hij Ha Hb) as Hlt.
  assert (HD' : Forall (fun a => DK (fst a)) (list_sort lt reverse l))
    by (eapply Permutation_Forall; [symmetry; apply list_sort_perm|exact HD]).
  rewrite Forall_forall in HD'.
  assert (Da : DK (fst a)) by (apply HD'; eapply nth_error_In; eassumption).
  assert (Db : DK (fst b)) by (apply HD'; eapply nth_error_In; eassumption).
  destruct reverse; simpl in Hlt; unfold lt, tuple_ltb in Hlt.
  - rewrite (keq_sym KO (fst b) (fst a) Db Da), Heq in Hlt. exact Hlt.
  - rewrite Heq in Hlt. exact Hlt.
Qed.

End KeyedOrder.

Section SortedRows.
Variable float : string -> option pyfloat.

(** X3. A completed sort only rearranges: the rows afterwards are the rows
    before, each with its handle and its cell values, none lost and none
    twice; column widths, [self.cols] and [self.data] are untouched. *)
Theorem sort_rearranges_rows col t t' :
  tree_wf (tree t) -> sort_cols float col t = Ok t' ->
  Permutation (map row_content (children (tree t')))
              (map row_content (children (tree t))) /\
  List.length (children (tree t')) = List.length (children (tree t)) /\
  columns (tree t') = columns (tree t) /\
  cols t' = cols t /\ data t' = data t.
Proof.
  intros Hwf H.
  destruct (sort_cols_Ok float col t t' Hwf H)
    as (ids & _ & Hp & Hch & Hc & _ & _ & Hcols & Hdata & _).
  assert (Hperm : Permutation (map row_content (children (tree t')))
                              (map row_content (children (tree t)))).
  { rewrite Hch, restacked_content
      by (intros x Hx; eapply Permutation_in; [exact Hp|exact Hx]).
    rewrite <- (content_of_self (children (tree t))) by apply Hwf.
    now apply Permutation_map. }
  split; [exact Hperm|]. split; [|auto].
  apply Permutation_length in Hperm. now rewrite !length_map in Hperm.
Qed.

(** X4. A completed sort taken with the flag cleared (every second click)
    leaves the rows in ascending order of the column. *)
Theorem sort_ascends col t t' :
  tree_wf (tree t) -> descending t = false ->
  (numeric_sort col (tree t) = true -> nan_free float col (tree t)) ->
  sort_cols float col t = Ok t' ->
  displayed_ascending float (numeric_sort col (tree t)) (tree t) col
                      (children (tree t')).
Proof.
  intros Hwf Hdesc Hnan H.
  pose proof (sort_cols_data float col t t' Hwf H) as Hd. cbv zeta in Hd.
  destruct Hwf as [Hnd _]. rewrite Hdesc in Hd.
  intros i j r1 r2 Hij H1 H2. unfold row_ltb.
  destruct (numeric_sort col (tree t)).
  - destruct Hd as [Hall Hd].
    apply (map_nth_error (float_pair float (tree t) col)) in H1, H2.
    rewrite Hd in H1, H2.
    eapply (keyed_sort_ascends _ _ _ float_key_order); try eassumption.
    + apply nan_free_pairs; auto.
    + now apply float_pairs_NoDup.
  - apply (map_nth_error (text_pair (tree t) col)) in H1, H2.
    rewrite Hd in H1, H2.
    change (String.ltb (fst (text_pair (tree t) col r2))
                       (fst (text_pair (tree t) col r1)) = false).
    eapply (keyed_sort_ascends _ _ _ string_key_order); try eassumption.
    + apply Forall_forall. auto.
    + now apply text_pairs_NoDup.
Qed.

(** X5. Rows that tie in the column do not keep their current relative
    order: the sort compares the pairs [(value, handle)], so tied rows come
    out by handle, ascending when the flag is cleared and descending when it
    is set.  For a numeric sort this is under the proviso that no value of
    the column reads as not-a-number. *)
Theorem sort_breaks_ties_by_handle col t t' i j r1 r2 :
  tree_wf (tree t) ->
  (numeric_sort col (tree t) = true -> nan_free float col (tree t)) ->
  sort_cols float col t = Ok t' -> i < j ->
  nth_error (children (tree t')) i = Some r1 ->
  nth_error (children (tree t')) j = Some r2 ->
  row_eqb float (numeric_sort col (tree t)) (tree t) col r1 r2 = true ->
  if descending t return Prop
  then String.ltb (iid r2) (iid r1) = true
  else String.ltb (iid r1) (iid r2) = true.
Proof.
  intros Hwf Hnan H Hij H1 H2 Heq.
  pose proof (sort_cols_data float col t t' Hwf H) as Hd. cbv zeta in Hd.
  destruct Hwf as [Hnd _]. unfold row_eqb in Heq.
  destruct (numeric_sort col (tree t)).
  - destruct Hd as [Hall Hd].
    apply (map_nth_error (float_pair float (tree t) col)) in H1, H2.
    rewrite Hd in H1, H2.
    apply (keyed_sort_ties _ _ _ float_key_order (descending t) _ i j _ _
             (nan_free_pairs float col (tree t) (Hnan eq_refl) Hall)
             (float_pairs_NoDup float (tree t) col _ Hnd) Hij H1 H2 Heq).
  - apply (map_nth_error (text_pair (tree t) col)) in H1, H2.
    rewrite Hd in H1, H2.
    apply (keyed_sort_ties _ _ _ string_key_order (descending t) _ i j _ _
             (proj2 (Forall_forall _ _) (fun _ _ => I))
             (text_pairs_NoDup (tree t) col _ Hnd) Hij H1 H2 Heq).
Qed.

(** X6. A sort takes the highlight away from the row under a resting
    pointer: after a completed sort no row carries the hover tag, the row
    is still recorded as focused, and a motion that stays on it changes
    nothing, so it stays unhighlighted until the pointer reaches another
    row. *)
Theorem sort_drops_highlight identify_row col t t1 y :
  tree_wf (tree t) -> sort_cols float col t = Ok t1 ->
  focus_iid (last_focus t) = Some (identify_row (tree t1) y) ->
  (forall r, In r (children (tree t1)) -> ~ is_hovered r) /\
  highlight_row identify_row y t1 = Ok t1.
Proof.
  intros Hwf H Hf.
  destruct (sort_cols_Ok float col t t1 Hwf H)
    as (ids & _ & Hp & Hch & _ & _ & _ & _ & _ & Hlf & _).
  split.
  - intros r Hr. rewrite Hch in Hr.
    apply (shaded_not_hovered (restacked (children (tree t)) ids true) r);
      [|exact Hr].
    apply restacked_shaded.
    intros x Hx. eapply Permutation_in; [exact Hp|exact Hx].
  - unfold highlight_row. rewrite Hlf.
    now rewrite (proj2 (differs_false _ _) Hf).
Qed.

End SortedRows.

Lemma scores_table_wf : tree_wf (tree scores_table).
Proof.
  apply (init_table_wf measure8 ["Name"; "Score"] [["Bob"; "5"]; ["Amy"; "12"]]).
  reflexivity.
Qed.

Lemma scores_sorted_wf : tree_wf (tree scores_sorted).
Proof.
  apply (sort_cols_wf dec_float "Score" scores_table scores_sorted scores_table_wf).
  reflexivity.
Qed.

Lemma scores_hover_bob_wf : tree_wf (tree scores_hover_bob).
Proof. exact scores_table_wf. Qed.

Lemma sort_rearranges_rows_witness :
  sort_cols dec_float "Score" scores_table = Ok scores_sorted /\
  Permutation (map row_content (children (tree scores_sorted)))
              (map row_content (children (tree scores_table))).
Proof.
  split; [reflexivity|].
  apply (sort_rearranges_rows dec_float "Score" scores_table scores_sorted).
  - exact scores_table_wf.
  - reflexivity.
Defined.

Lemma sort_ascends_witness :
  sort_cols dec_float "Score" scores_sorted = Ok scores_table /\
  displayed_ascending dec_float true (tree scores_sorted) "Score"
                      (children (tree scores_table)).
Proof.
  split; [reflexivity|].
  apply (sort_ascends dec_float "Score" scores_sorted scores_table).
  - exact scores_sorted_wf.
  - reflexivity.
  - intros _. unfold nan_free. simpl. repeat constructor; discriminate.
  - reflexivity.
Defined.

Lemma sort_breaks_ties_by_handle_witness :
  init_table measure8 ["v"] [["a"]; ["a"]] = Ok twins_table /\
  sort_cols dec_float "v" twins_table = Ok twins_sorted /\
  String.ltb "I001" "I002" = true.
Proof.
  split; [reflexivity|]. split; [reflexivity|].
  apply (sort_breaks_ties_by_handle dec_float "v" twins_table twins_sorted 0 1
           (mkRow "I002" ["a"] ["oddrow"]) (mkRow "I001" ["a"] ["evenrow"])).
  - apply (init_table_wf measure8 ["v"] [["a"]; ["a"]]). reflexivity.
  - discriminate.
  - reflexivity.
  - auto.
  - reflexivity.
  - reflexivity.
  - reflexivity.
Defined.

Lemma sort_drops_highlight_witness :
  sort_cols dec_float "Score" scores_hover_bob = Ok scores_hover_sorted /\
  (forall r, In r (children (tree scores_hover_sorted)) -> ~ is_hovered r) /\
  highlight_row identify_by_height 25 scores_hover_sorted = Ok scores_hover_sorted.
Proof.
  split; [reflexivity|].
  apply (sort_drops_highlight dec_float identify_by_height "Score"
           scores_hover_bob scores_hover_sorted 25%Z).
  - exact scores_hover_bob_wf.
  - reflexivity.
  - reflexivity.
Defined.

(** ** What the handlers leave alone *)

Lemma tree_item_frame i tg tv tv' :
  tree_item i tg tv = Ok tv' ->
  map row_content (children tv') = map row_content (children tv) /\
  columns tv' = columns tv.
Proof.
  unfold tree_item. destruct (String.eqb i "").
  - intros H. inversion H; subst. auto.
  - destruct (find_row i (children tv)); intros H; inversion H; subst; simpl.
    split; [|reflexivity]. rewrite map_map. apply map_ext. intros r0.
    now destruct (String.eqb (iid r0) i).
Qed.

Lemma restore_focus_frame f tv tv' :
  restore_focus f tv = Ok tv' ->
  map row_content (children tv') = map row_content (children tv) /\
  columns tv' = columns tv.
Proof.
  unfold restore_focus. destruct (focus_iid f) as [j|].
  - destruct (String.eqb j "").
    + intros H. inversion H; subst. auto.
    + destruct (focus_tags f) as [tg|].
      * apply tree_item_frame.
      * intros H. bind_inv H. inversion H; subst. auto.
  - intros H. inversion H; subst. auto.
Qed.

Lemma highlight_row_frame identify_row y t t' :
  highlight_row identify_row y t = Ok t' ->
  map row_content (children (tree t')) = map row_content (children (tree t)) /\
  columns (tree t') = columns (tree t) /\
  descending t' = descending t /\ cols t' = cols t /\ data t' = data t.
Proof.
  unfold highlight_row.
  destruct (differs (identify_row (tree t) y) (focus_iid (last_focus t))).
  - intros H. bind_inv H. rename x into tv1. bind_inv H. bind_inv H.
    rename x0 into tv2. inversion H; subst; clear H; simpl.
    destruct (restore_focus_frame _ _ _ E) as [Hr1 Hc1].
    destruct (tree_item_frame _ _ _ _ E1) as [Hr2 Hc2].
    repeat split; congruence.
  - intros H. inversion H; subst. auto.
Qed.

Lemma sort_cols_frame float col t t' :
  tree_wf (tree t) -> sort_cols float col t = Ok t' ->
  Permutation (map row_content (children (tree t')))
              (map row_content (children (tree t))) /\
  columns (tree t') = columns (tree t) /\
  cols t' = cols t /\ data t' = data t.
Proof.
  intros Hwf H.
  destruct (sort_cols_Ok float col t t' Hwf H)
    as (ids & _ & Hp & Hch & Hc & _ & _ & Hcols & Hdata & _).
  split; [|auto].
  rewrite Hch, restacked_content
    by (intros x Hx; eapply Permutation_in; [exact Hp|exact Hx]).
  rewrite <- (content_of_self (children (tree t))) by apply Hwf.
  now apply Permutation_map.
Qed.

Lemma content_iid rs : map iid rs = map fst (map row_content rs).
Proof. rewrite map_map. reflexivity. Qed.

Lemma content_values rs : map values rs = map snd (map row_content rs).
Proof. rewrite map_map. reflexivity. Qed.

Lemma init_table_widths_cover measure cs rows t :
  init_table measure cs rows = Ok t -> widths_cover measure t.
Proof.
  intros H. unfold init_table, insert_data in H; simpl in H.
  bind_inv H. rename x into tv1. bind_inv H. rename x into tv2.
  inversion H; subst; clear H. unfold widths_cover; simpl.
  destruct (register_columns_Ok measure cs (Treeview cs))
    as (tv1' & E1 & _ & _ & _ & _ & Hhead & _).
  { simpl. rewrite map_map; simpl. rewrite map_id. apply incl_refl. }
  rewrite E in E1; inversion E1; subst tv1'.
  destruct (insert_rows_Ok _ _ _ _ _ _ E0) as (_ & _ & _ & Hw & Hcells).
  intros j c Hj.
  destruct (Hw c (measure c)) as (w & Hcw & Hle);
    [apply Hhead; eapply nth_error_In; eassumption|].
  exists w. repeat split; auto.
  intros item v Hin Hv.
  destruct (Hcells item j v c Hin Hv Hj) as (w' & Hcw' & Hle').
  rewrite Hcw in Hcw'. inversion Hcw'; subst. exact Hle'.
Qed.

Section Frame.
Variable measure : string -> Z.
Variable float : string -> option pyfloat.
Variable identify_row : treeview -> Z -> string.

(** Every reachable state still shows what was constructed: same columns
    and widths, same rows up to order. *)
Lemma reachable_frame t :
  reachable measure float identify_row t ->
  tree_wf (tree t) /\
  exists t0, init_table measure (cols t) (data t) = Ok t0 /\
    columns (tree t) = columns (tree t0) /\
    Permutation (map row_content (children (tree t)))
                (map row_content (children (tree t0))).
Proof.
  induction 1 as [cs rows t H|t col t' _ IH H|t y t' _ IH H].
  - destruct (init_table_Ok _ _ _ _ H) as (Hcols & Hdata & _).
    split; [exact (init_table_wf _ _ _ _ H)|].
    exists t. rewrite Hcols, Hdata. auto.
  - destruct IH as (Hwf & t0 & H0 & Hc & Hp).
    destruct (sort_cols_frame float col t t' Hwf H) as (Hp' & Hc' & Hcols & Hdata).
    split; [exact (sort_cols_wf float col t t' Hwf H)|].
    exists t0. rewrite Hcols, Hdata. split; [exact H0|].
    split; [congruence|]. now rewrite Hp'.
  - destruct IH as ((Hnd & Hne) & t0 & H0 & Hc & Hp).
    destruct (highlight_row_frame identify_row y t t' H)
      as (Hr & Hc' & _ & Hcols & Hdata).
    split.
    + unfold tree_wf. rewrite content_iid, Hr, <- content_iid. auto.
    + exists t0. rewrite Hcols, Hdata. split; [exact H0|].
      split; [congruence|]. now rewrite Hr.
Qed.

(** X7. In every state the table can reach, a pointer motion is handled
    without an exception, wherever the pointer is. *)
Theorem motion_never_fails t y :
  hit_test_sound identify_row ->
  reachable measure float identify_row t ->
  exists t', highlight_row identify_row y t = Ok t'.
Proof.
  intros Hsound Hreach.
  pose proof (reachable_inv measure float identify_row Hsound t Hreach) as Hinv.
  destruct (option_eq_dec_string (focus_iid (last_focus t))
                                 (Some (identify_row (tree t) y))) as [E|E].
  - exists t. now apply highlight_row_same.
  - destruct (highlight_row_step identify_row Hsound t y Hinv E) as (t' & _ & Hh & _).
    eauto.
Qed.

(** X8. A pointer motion writes tags and the focus record only, and the
    tags of at most two rows: the rows keep their order, handles and cell
    values; the column widths, the direction flag, [self.cols] and
    [self.data] stay as they were; and every row other than the one that
    was focused and the one now under the pointer keeps its tags. *)
Theorem motion_keeps_rows t y t' :
  hit_test_sound identify_row ->
  reachable measure float identify_row t ->
  highlight_row identify_row y t = Ok t' ->
  map row_content (children (tree t')) = map row_content (children (tree t)) /\
  columns (tree t') = columns (tree t) /\
  descending t' = descending t /\ cols t' = cols t /\ data t' = data t /\
  (forall k, k <> identify_row (tree t) y -> k <> "" ->
             focus_iid (last_focus t) <> Some k ->
             tree_item_tags k (tree t') = tree_item_tags k (tree t)).
Proof.
  intros Hsound Hreach H.
  destruct (highlight_row_frame identify_row y t t' H)
    as (Hr & Hc & Hd & Hcols & Hdata).
  repeat (split; [assumption|]).
  pose proof (reachable_inv measure float identify_row Hsound t Hreach) as Hinv.
  destruct (option_eq_dec_string (focus_iid (last_focus t))
                                 (Some (identify_row (tree t) y))) as [E|E].
  - rewrite (highlight_row_same identify_row t y E) in H. now inversion H.
  - destruct (highlight_row_step identify_row Hsound t y Hinv E)
      as (t'' & _ & Hh & _ & _ & _ & _ & _ & _ & Hoth & _).
    rewrite Hh in H. inversion H; subst t''. exact Hoth.
Qed.

(** X9. Rows are never added, dropped or edited after construction: in
    every reachable state the displayed rows carry the value lists of
    [self.data], each as often as it occurs there, and the registered
    columns are [self.cols]. *)
Theorem displayed_rows_are_the_data t :
  reachable measure float identify_row t ->
  Permutation (map values (children (tree t))) (data t) /\
  List.length (children (tree t)) = List.length (data t) /\
  map fst (columns (tree t)) = cols t.
Proof.
  intros Hreach. destruct (reachable_frame t Hreach) as (_ & t0 & H0 & Hc & Hp).
  destruct (init_table_Ok _ _ _ _ H0) as (_ & _ & _ & _ & Hch & _ & Hn).
  assert (Hv : Permutation (map values (children (tree t))) (data t)).
  { rewrite (content_values (children (tree t))), Hp, <- content_values, Hch.
    now rewrite fresh_rows_values. }
  split; [exact Hv|]. split.
  - apply Permutation_length in Hv. now rewrite length_map in Hv.
  - now rewrite Hc.
Qed.

(** X10. Sorting and hovering never resize a column, so in every reachable
    state each column is still at least as wide as its header and as every
    cell [self.data] holds for it. *)
Theorem widths_cover_content_always t :
  reachable measure float identify_row t -> widths_cover measure t.
Proof.
  intros Hreach. destruct (reachable_frame t Hreach) as (_ & t0 & H0 & Hc & _).
  pose proof (init_table_widths_cover _ _ _ _ H0) as Hcover.
  destruct (init_table_Ok _ _ _ _ H0) as (Hcols & Hdata & _).
  unfold widths_cover in *. rewrite Hcols, Hdata in Hcover. rewrite Hc.
  exact Hcover.
Qed.

End Frame.

Lemma scores_hover_stale_reachable :
  reachable measure8 dec_float identify_by_height scores_hover_stale.
Proof.
  apply (reach_motion measure8 dec_float identify_by_height scores_hover_sorted 5%Z).
  - apply (reach_sort measure8 dec_float identify_by_height scores_hover_bob "Score").
    + exact scores_hover_bob_reachable.
    + reflexivity.
  - reflexivity.
Qed.

Lemma motion_never_fails_witness :
  exists t', highlight_row identify_by_height 1000 scores_hover_stale = Ok t'.
Proof.
  apply (motion_never_fails measure8 dec_float identify_by_height
           scores_hover_stale 1000%Z).
  - exact identify_by_height_sound.
  - exact scores_hover_stale_reachable.
Defined.

Lemma motion_keeps_rows_witness :
  highlight_row identify_by_height 25 scores_hover_bob = Ok scores_hover_amy /\
  map row_content (children (tree scores_hover_amy))
  = map row_content (children (tree scores_hover_bob)).
Proof.
  split; [reflexivity|].
  apply (motion_keeps_rows measure8 dec_float identify_by_height
           scores_hover_bob 25%Z scores_hover_amy).
  - exact identify_by_height_sound.
  - exact scores_hover_bob_reachable.
  - reflexivity.
Defined.

Lemma displayed_rows_are_the_data_witness :
  Permutation (map values (children (tree scores_hover_stale)))
              [["Bob"; "5"]; ["Amy"; "12"]].
Proof.
  apply (displayed_rows_are_the_data measure8 dec_float identify_by_height
           scores_hover_stale).
  exact scores_hover_stale_reachable.
Defined.

Lemma widths_cover_content_always_witness :
  widths_cover measure8 scores_hover_stale.
Proof.
  apply (widths_cover_content_always measure8 dec_float identify_by_height
           scores_hover_stale).
  exact scores_hover_stale_reachable.
Defined.

(** ** Header clicks in reachable states *)

Lemma shifted_content_eq l1 : forall k l2,
  map row_content l1 = map row_content l2 ->
  (forall i r, nth_error l1 i = Some r -> tags r = shade_at (k + i)) ->
  (forall i r, nth_error l2 i = Some r -> tags r = shade_at (k + i)) ->
  l1 = l2.
Proof.
  induction l1 as [|a l1 IH]; intros k [|b l2] Hc Ha Hb; try discriminate;
    [reflexivity|].
  unfold row_content in Hc. simpl in Hc. injection Hc as Hi Hv Hc.
  assert (Ht : tags a = tags b).
  { rewrite (Ha 0 a eq_refl), (Hb 0 b eq_refl). reflexivity. }
  f_equal; [destruct a, b; simpl in *; congruence|].
  apply (IH (S k)); [exact Hc| |].
  - intros i r Hr. rewrite Nat.add_succ_comm. now apply (Ha (S i)).
  - intros i r Hr. rewrite Nat.add_succ_comm. now apply (Hb (S i)).
Qed.

(** Two displays of the same rows in the same order, both tagged by
    position, are the same display. *)
Lemma shaded_content_eq rs1 rs2 :
  map row_content rs1 = map row_content rs2 -> shaded rs1 -> shaded rs2 -> rs1 = rs2.
Proof. intros Hc H1 H2. exact (shifted_content_eq rs1 0 rs2 Hc H1 H2). Qed.

Lemma cell_content tv col r r' :
  row_content r = row_content r' -> cell tv col r = cell tv col r'.
Proof.
  unfold row_content, cell. intros H. injection H as _ Hv. now rewrite Hv.
Qed.

Lemma parsed_dec (o : option pyfloat) : {o <> None} + {~ o <> None}.
Proof.
  destruct o; [left; discriminate|right; intros H; now apply H].
Qed.

Section Clicks.
Variable measure : string -> Z.
Variable float : string -> option pyfloat.
Variable identify_row : treeview -> Z -> string.

Lemma nan_free_sort col t t' :
  tree_wf (tree t) -> sort_cols float col t = Ok t' ->
  nan_free float col (tree t) -> nan_free float col (tree t').
Proof.
  intros Hwf H Hn.
  destruct (sort_cols_frame float col t t' Hwf H) as (Hp & Hc & _).
  unfold nan_free in *. rewrite Forall_forall in *. intros r' Hr'.
  assert (Hin : In (row_content r') (map row_content (children (tree t))))
    by (eapply Permutation_in; [exact Hp|now apply in_map]).
  apply in_map_iff in Hin. destruct Hin as (r & Hrc & Hr).
  rewrite (cell_columns (tree t) (tree t') col r' Hc).
  rewrite <- (cell_content (tree t) col r r' Hrc). now apply Hn.
Qed.

(** X11. Clicking a header of the constructed table, in any reachable
    state, has one of three outcomes and no other: [IndexError] when the
    table has no rows; [ValueError] when the sample passes the numeric test
    and some value of the column does not convert; otherwise the sort
    completes.  The widget never rejects the column. *)
Theorem header_click_outcome t col :
  reachable measure float identify_row t -> In col (cols t) ->
  (children (tree t) = [] /\ sort_cols float col t = Raise IndexError) \/
  (numeric_sort col (tree t) = true /\
   Exists (fun r => float (cell (tree t) col r) = None) (children (tree t)) /\
   sort_cols float col t = Raise ValueError) \/
  (children (tree t) <> [] /\
   (numeric_sort col (tree t) = false \/
    Forall (fun r => float (cell (tree t) col r) <> None) (children (tree t))) /\
   exists t', sort_cols float col t = Ok t').
Proof.
  intros Hreach Hcol.
  destruct (reachable_frame measure float identify_row t Hreach)
    as (Hwf & t0 & H0 & Hc & _).
  destruct (init_table_Ok _ _ _ _ H0) as (_ & _ & _ & _ & _ & _ & Hn).
  assert (Hknown : In col (map fst (columns (tree t)))) by (rewrite Hc, Hn; exact Hcol).
  destruct (children (tree t)) as [|r0 rs] eqn:Hch.
  - left. split; [reflexivity|].
    unfold sort_cols, column_data. rewrite Hch. reflexivity.
  - right.
    assert (Hd : map (fun r => (cell (tree t) col r, iid r)) (children (tree t))
                 = (cell (tree t) col r0, iid r0)
                   :: map (fun r => (cell (tree t) col r, iid r)) rs)
      by (rewrite Hch; reflexivity).
    assert (Hok : (numeric_sort col (tree t) = false \/
                   Forall (fun r => float (cell (tree t) col r) <> None) (r0 :: rs)) ->
                  exists t', sort_cols float col t = Ok t').
    { intros Hgood.
      destruct (sorted_handles_total float (descending t)
                  (cell (tree t) col r0, iid r0)
                  (map (fun r => (cell (tree t) col r, iid r)) rs)) as [ids Hids].
      - unfold numeric_sort in Hgood. rewrite Hch in Hgood.
        destruct Hgood as [Hg|Hg]; [now left|right].
        change (Forall (fun x => float (fst x) <> None)
                  (map (fun r => (cell (tree t) col r, iid r)) (r0 :: rs))).
        rewrite Forall_map. exact Hg.
      - apply (sort_cols_total float col t ids Hwf Hknown). now rewrite Hd. }
    destruct (numeric_sort col (tree t)) eqn:Hnum.
    + destruct (Forall_Exists_dec
                  (fun r => float (cell (tree t) col r) <> None)
                  (fun r => parsed_dec (float (cell (tree t) col r)))
                  (r0 :: rs)) as [Hall|Hex].
      * right. split; [discriminate|]. split; [now right|]. apply Hok. now right.
      * left. split; [reflexivity|].
        assert (Hex' : Exists (fun r => float (cell (tree t) col r) = None) (r0 :: rs)).
        { eapply Exists_impl; [|exact Hex]. simpl. intros r Hr.
          destruct (float (cell (tree t) col r)); [|reflexivity].
          exfalso. apply Hr. discriminate. }
        split; [exact Hex'|].
        unfold sort_cols. rewrite column_data_known by assumption.
        rewrite Hd. cbn [bind].
        rewrite sorted_handles_numeric_fail; [reflexivity| |].
        -- unfold numeric_sort in Hnum. now rewrite Hch in Hnum.
        -- apply Exists_exists in Hex'. destruct Hex' as (r & Hr & Hf).
           exists (cell (tree t) col r, iid r). split; [|exact Hf].
           change (In ((fun r1 => (cell (tree t) col r1, iid r1)) r)
                      (map (fun r1 => (cell (tree t) col r1, iid r1)) (r0 :: rs))).
           now apply in_map.
    + right. split; [discriminate|]. split; [now left|]. apply Hok. now left.
Qed.

(** X12. Sorting has period two.  When three consecutive sorts of one
    column complete and take the same numeric-or-text decision (no value
    reading as not-a-number when it is numeric), the third leaves the table
    exactly as the first did: same row order, same tags, same flag. *)
Theorem sort_has_period_two col t t1 t2 t3 :
  tree_wf (tree t) ->
  sort_cols float col t = Ok t1 -> sort_cols float col t1 = Ok t2 ->
  sort_cols float col t2 = Ok t3 ->
  numeric_sort col (tree t1) = numeric_sort col (tree t) ->
  numeric_sort col (tree t2) = numeric_sort col (tree t) ->
  (numeric_sort col (tree t) = true -> nan_free float col (tree t)) ->
  t3 = t1.
Proof.
  intros Hwf H1 H2 H3 Hm1 Hm2 Hnan.
  pose proof (sort_cols_wf float col t t1 Hwf H1) as Hwf1.
  pose proof (sort_cols_wf float col t1 t2 Hwf1 H2) as Hwf2.
  pose proof (sorts_mirror float col t t1 t2 Hwf H1 H2 Hm1 Hnan) as Hr12.
  assert (Hnan1 : numeric_sort col (tree t1) = true -> nan_free float col (tree t1)).
  { intros Hn. rewrite Hm1 in Hn. apply (nan_free_sort col t t1 Hwf H1). auto. }
  assert (Hr23 : map row_content (children (tree t3))
                 = rev (map row_content (children (tree t2)))).
  { apply (sorts_mirror float col t1 t2 t3 Hwf1 H2 H3); [congruence|exact Hnan1]. }
  rewrite Hr12, rev_involutive in Hr23.
  destruct (sort_cols_Ok float col t t1 Hwf H1)
    as (ids1 & _ & Hp1 & Hch1 & _).
  destruct (sort_cols_Ok float col t1 t2 Hwf1 H2)
    as (ids2 & _ & _ & _ & Hc2 & Hrt2 & Hs2 & Hcols2 & Hdata2 & Hlf2 & Hd2).
  destruct (sort_cols_Ok float col t2 t3 Hwf2 H3)
    as (ids3 & _ & Hp3 & Hch3 & Hc3 & Hrt3 & Hs3 & Hcols3 & Hdata3 & Hlf3 & Hd3).
  assert (Hsh1 : shaded (children (tree t1))).
  { rewrite Hch1. apply restacked_shaded.
    intros x Hx. eapply Permutation_in; [exact Hp1|exact Hx]. }
  assert (Hsh3 : shaded (children (tree t3))).
  { rewrite Hch3. apply restacked_shaded.
    intros x Hx. eapply Permutation_in; [exact Hp3|exact Hx]. }
  pose proof (shaded_content_eq _ _ Hr23 Hsh3 Hsh1) as Hrows.
  assert (Htree : tree t3 = tree t1).
  { destruct (tree t3), (tree t1), (tree t2); simpl in *. congruence. }
  assert (Hflag : descending t3 = descending t1).
  { rewrite Hd3, Hd2. apply Bool.negb_involutive. }
  destruct t3, t1, t2; simpl in *. congruence.
Qed.

End Clicks.

Lemma header_click_outcome_witness :
  (children (tree scores_hover_stale) = [] /\
   sort_cols dec_float "Score" scores_hover_stale = Raise IndexError) \/
  (numeric_sort "Score" (tree scores_hover_stale) = true /\
   Exists (fun r => dec_float (cell (tree scores_hover_stale) "Score" r) = None)
          (children (tree scores_hover_stale)) /\
   sort_cols dec_float "Score" scores_hover_stale = Raise ValueError) \/
  (children (tree scores_hover_stale) <> [] /\
   (numeric_sort "Score" (tree scores_hover_stale) = false \/
    Forall (fun r => dec_float (cell (tree scores_hover_stale) "Score" r) <> None)
           (children (tree scores_hover_stale))) /\
   exists t', sort_cols dec_float "Score" scores_hover_stale = Ok t').
Proof.
  apply (header_click_outcome measure8 dec_float identify_by_height
           scores_hover_stale "Score").
  - exact scores_hover_stale_reachable.
  - right. now left.
Defined.

Lemma sort_has_period_two_witness :
  sort_cols dec_float "Score" scores_table = Ok scores_sorted /\
  sort_cols dec_float "Score" scores_sorted = Ok scores_table /\
  scores_sorted = scores_sorted.
Proof.
  split; [reflexivity|]. split; [reflexivity|].
  apply (sort_has_period_two dec_float "Score" scores_table scores_sorted
           scores_table scores_sorted).
  - exact scores_table_wf.
  - reflexivity.
  - reflexivity.
  - reflexivity.
  - reflexivity.
  - reflexivity.
  - intros _. unfold nan_free. simpl. repeat constructor; discriminate.
Defined.
